(** * RealtimeSession: a shallow embedding of src/lib/realtime-session.ts

    The session controller turns a newline-delimited stream of JSON events
    into a transcript of messages.  The embedding follows the class member by
    member: the private fields become a record, every method becomes a
    function on that record, and the calls the class makes into its
    environment (listeners, the error callback, the console, fetch, the abort
    controller) are appended to ghost traces kept next to the fields.

    What the class takes from the JavaScript platform ([JSON.parse],
    [JSON.stringify], [Date.now], [Math.random], [TextDecoder]) is a
    parameter of the development, the class [Platform]; every theorem holds
    for every platform.

    [sendMessage] is an async function.  Its body is cut where it awaits:
    the code before the first await, the rest of the [try] block run against
    what the awaited promises settle to, the code after the loop and the
    [catch] block are separate functions, and [sendMessage] composes them for
    a turn that nothing interleaves with.  The relation [reachable] lets the
    pieces of several turns and the other methods interleave freely.

    Assumptions: listeners and the error callback return normally and do not
    call back into the session; the extra body fields given to the
    constructor can be serialised. *)

From Stdlib Require Import NArith List String Ascii Bool Lia.
From stdpp Require Import base tactics option list gmap.

Set Default Proof Using "Type".
Open Scope N_scope.
Open Scope nat_scope.

(** ** JavaScript strings

    A JavaScript string is a sequence of UTF-16 code units. *)

Abbreviation jsstring := (list N).

Fixpoint str (s : string) : jsstring :=
  match s with
  | EmptyString => []
  | String a s' => N_of_ascii a :: str s'
  end.

Arguments str : simpl never.

(** A string is truthy when it is not empty. *)
Definition nonempty (s : jsstring) : bool :=
  match s with [] => false | _ :: _ => true end.

(** The code units stripped by [String.prototype.trim]: the WhiteSpace and
    LineTerminator productions of ECMAScript. *)
Definition isWhiteSpace (c : N) : bool :=
  existsb (N.eqb c)
    [9; 10; 11; 12; 13; 32; 160; 5760; 8232; 8233; 8239; 8287; 12288; 65279]%N
  || ((8192 <=? c)%N && (c <=? 8202)%N).

Fixpoint trimStart (s : jsstring) : jsstring :=
  match s with
  | [] => []
  | c :: s' => if isWhiteSpace c then trimStart s' else s
  end.

Definition trimEnd (s : jsstring) : jsstring := rev (trimStart (rev s)).

Definition trim (s : jsstring) : jsstring := trimEnd (trimStart s).

(** [buffer.indexOf("\n")]: [None] stands for -1. *)
Fixpoint indexOf (c : N) (s : jsstring) : option nat :=
  match s with
  | [] => None
  | x :: s' => if N.eqb x c then Some 0 else S <$> indexOf c s'
  end.

Definition newline : N := 10%N.

(** ** JSON values and the JavaScript operations applied to them *)

#[local] Set Warnings "-register-all".
Inductive JSON (Number : Type) : Type :=
| JNull
| JBool (b : bool)
| JNum (n : Number)
| JStr (s : jsstring)
| JArr (items : list (JSON Number))
| JObj (fields : list (jsstring * JSON Number)).

#[local] Set Warnings "register-all".

Arguments JNull {Number}.
Arguments JBool {Number} b.
Arguments JNum {Number} n.
Arguments JStr {Number} s.
Arguments JArr {Number} items.
Arguments JObj {Number} fields.

(** What the class asks of the JavaScript platform.

    - [Number] is the type of JavaScript numbers; the class only ever tests
      one for truthiness, and [Number_falsy] holds of the zeros and of NaN.
    - [JSON_parse] returns [None] where [JSON.parse] throws a SyntaxError; an
      object comes back as its fields in order, each key once.
    - [JSON_stringify v] is [JSON.stringify(v, null, 2)].
    - The session consults the clock and the random generator to make ids;
      [Date_now n] and [Math_random n] are what [Date.now()] and
      [Math.random()] give, rendered as in a template literal, the n-th time
      it does so (the session counts these times in its ghost field [ticks]).
    - [TypeError_message] is the message of the TypeError raised by reading a
      property of [null].
    - The TextDecoder in streaming mode is a transducer that consumes one
      byte at a time and keeps its state between calls of [decode]. *)
Class Platform := {
  Number : Type;
  Number_falsy : Number -> bool;
  JSON_parse : jsstring -> option (JSON Number);
  JSON_stringify : JSON Number -> jsstring;
  Date_now : nat -> jsstring;
  Math_random : nat -> jsstring;
  TypeError_message : jsstring;
  decoder_state : Type;
  decoder_init : decoder_state;
  decoder_step : decoder_state -> Byte.byte -> decoder_state * jsstring;
}.

Section Model.
Context `{Platform}.

(** A JavaScript value that came out of [JSON.parse], or [undefined]
    ([None]). *)
Definition JSValue : Type := option (JSON Number).

Definition undefined : JSValue := None.

Fixpoint assoc (k : jsstring) (fields : list (jsstring * JSON Number)) : JSValue :=
  match fields with
  | [] => None
  | (k', v) :: rest => if bool_decide (k' = k) then Some v else assoc k rest
  end.

(** [v.k] for the keys this class reads: only an object has them. *)
Definition prop (v : JSON Number) (k : jsstring) : JSValue :=
  match v with
  | JObj fields => assoc k fields
  | _ => None
  end.

(** [v?.k] *)
Definition opt_prop (v : JSValue) (k : jsstring) : JSValue :=
  match v with
  | None => None
  | Some JNull => None
  | Some w => prop w k
  end.

Definition truthy (v : JSValue) : bool :=
  match v with
  | None => false
  | Some JNull => false
  | Some (JBool b) => b
  | Some (JNum n) => negb (Number_falsy n)
  | Some (JStr s) => nonempty s
  | Some (JArr _) => true
  | Some (JObj _) => true
  end.

(** [a || b] *)
Definition js_or (a b : JSValue) : JSValue := if truthy a then a else b.

(** [v === "literal"] *)
Definition is_string (v : JSValue) (s : jsstring) : bool :=
  match v with
  | Some (JStr t) => bool_decide (t = s)
  | _ => false
  end.

(** ** The data model *)

Inductive Role := user | assistant.

(** The three values of [ToolInvocationState]; "streaming" is written
    [tool_streaming] here, the name [streaming] being taken by the status. *)
Inductive ToolInvocationState := tool_streaming | call | result.

Inductive Status := ready | submitted | streaming.

(** [ToolInvocationPart["toolInvocation"]]; its field [result] is
    [toolResult] here. *)
Record ToolInvocation := {
  toolCallId : jsstring;
  toolName : JSValue;
  state : ToolInvocationState;
  args : JSValue;
  argsText : option jsstring;
  toolResult : JSValue;
}.

(** Modelled from the spec: the [Message] type is imported from
    "@/components/message", which is not part of the sources.  A message has
    an id, a role, a content and optionally an ordered sequence of parts; the
    class reads [part.type] and, on a "tool-invocation" part, its
    [toolInvocation]; [OtherPart] stands for a part of any other type. *)
Inductive Part :=
| ToolInvocationPart (toolInvocation : ToolInvocation)
| OtherPart (type : jsstring).

Record Message := {
  id : jsstring;
  role : Role;
  content : option jsstring;
  parts : option (list Part);
}.

Record Snapshot := {
  messages : list Message;
  input : jsstring;
  status : Status;
  isInitializing : bool;
  streamUrl : option jsstring;
  sandboxId : option jsstring;
}.

(** [Partial<Snapshot>]: the keys present in the object literal. *)
Record PartialSnapshot := {
  p_messages : option (list Message);
  p_input : option jsstring;
  p_status : option Status;
  p_isInitializing : option bool;
  p_streamUrl : option (option jsstring);
  p_sandboxId : option (option jsstring);
}.

(** [Partial<ToolInvocationPart["toolInvocation"]>] as the two call sites
    build it: a key is present ([Some]) even when its value is [undefined]. *)
Record Updates := {
  u_toolName : option JSValue;
  u_args : option JSValue;
  u_argsText : option (option jsstring);
  u_result : option JSValue;
}.

(** A value thrown or a rejection reason: an [Error] instance with its name
    and message, or anything else with its [String(error)] rendering. *)
Inductive Thrown :=
| ThrownError (name message : jsstring)
| ThrownValue (rendering : jsstring).

(** Calls the session makes into its environment: a listener called by
    [emit], with the snapshot [getSnapshot] gives it; the error callback,
    with the name and message of the error; an abort controller told to
    abort; and [fetch], with the messages, timestamp and sandbox id put in
    the body ahead of the extra fields. *)
Inductive Call :=
| Notified (listener : nat) (seen : Snapshot)
| ErrorReported (name message : jsstring)
| AbortSignalled (controller : nat)
| FetchIssued (body_messages : list Message) (timestamp : jsstring)
              (body_sandboxId : option jsstring).

Inductive ConsoleEntry :=
| ParseErrorLogged
| StreamingAbortedLogged
| StreamingErrorLogged (e : Thrown).

(** The private fields of [RealtimeSession], followed by ghost state: the
    number of clock draws so far, the number of abort controllers allocated,
    the calls made (newest first) and the console output (newest first). *)
Record Session := {
  snapshot : Snapshot;
  listeners : list nat;
  has_onError : bool;
  abortController : option nat;
  currentTextId : option jsstring;
  toolMessageMap : gmap jsstring jsstring;
  activeScreenshotToolId : option jsstring;
  ticks : nat;
  controllers : nat;
  calls : list Call;
  console : list ConsoleEntry;
}.

Definition set_snapshot (v : Snapshot) (s : Session) : Session :=
  {| snapshot := v; listeners := listeners s; has_onError := has_onError s;
     abortController := abortController s; currentTextId := currentTextId s;
     toolMessageMap := toolMessageMap s;
     activeScreenshotToolId := activeScreenshotToolId s; ticks := ticks s;
     controllers := controllers s; calls := calls s; console := console s |}.

Definition set_listeners (v : list nat) (s : Session) : Session :=
  {| snapshot := snapshot s; listeners := v; has_onError := has_onError s;
     abortController := abortController s; currentTextId := currentTextId s;
     toolMessageMap := toolMessageMap s;
     activeScreenshotToolId := activeScreenshotToolId s; ticks := ticks s;
     controllers := controllers s; calls := calls s; console := console s |}.

Definition set_abortController (v : option nat) (s : Session) : Session :=
  {| snapshot := snapshot s; listeners := listeners s; has_onError := has_onError s;
     abortController := v; currentTextId := currentTextId s;
     toolMessageMap := toolMessageMap s;
     activeScreenshotToolId := activeScreenshotToolId s; ticks := ticks s;
     controllers := controllers s; calls := calls s; console := console s |}.

Definition set_currentTextId (v : option jsstring) (s : Session) : Session :=
  {| snapshot := snapshot s; listeners := listeners s; has_onError := has_onError s;
     abortController := abortController s; currentTextId := v;
     toolMessageMap := toolMessageMap s;
     activeScreenshotToolId := activeScreenshotToolId s; ticks := ticks s;
     controllers := controllers s; calls := calls s; console := console s |}.

Definition set_toolMessageMap (v : gmap jsstring jsstring) (s : Session) : Session :=
  {| snapshot := snapshot s; listeners := listeners s; has_onError := has_onError s;
     abortController := abortController s; currentTextId := currentTextId s;
     toolMessageMap := v;
     activeScreenshotToolId := activeScreenshotToolId s; ticks := ticks s;
     controllers := controllers s; calls := calls s; console := console s |}.

Definition set_activeScreenshotToolId (v : option jsstring) (s : Session) : Session :=
  {| snapshot := snapshot s; listeners := listeners s; has_onError := has_onError s;
     abortController := abortController s; currentTextId := currentTextId s;
     toolMessageMap := toolMessageMap s;
     activeScreenshotToolId := v; ticks := ticks s;
     controllers := controllers s; calls := calls s; console := console s |}.

Definition set_ticks (v : nat) (s : Session) : Session :=
  {| snapshot := snapshot s; listeners := listeners s; has_onError := has_onError s;
     abortController := abortController s; currentTextId := currentTextId s;
     toolMessageMap := toolMessageMap s;
     activeScreenshotToolId := activeScreenshotToolId s; ticks := v;
     controllers := controllers s; calls := calls s; console := console s |}.

Definition set_controllers (v : nat) (s : Session) : Session :=
  {| snapshot := snapshot s; listeners := listeners s; has_onError := has_onError s;
     abortController := abortController s; currentTextId := currentTextId s;
     toolMessageMap := toolMessageMap s;
     activeScreenshotToolId := activeScreenshotToolId s; ticks := ticks s;
     controllers := v; calls := calls s; console := console s |}.

Definition set_calls (v : list Call) (s : Session) : Session :=
  {| snapshot := snapshot s; listeners := listeners s; has_onError := has_onError s;
     abortController := abortController s; currentTextId := currentTextId s;
     toolMessageMap := toolMessageMap s;
     activeScreenshotToolId := activeScreenshotToolId s; ticks := ticks s;
     controllers := controllers s; calls := v; console := console s |}.

Definition set_console (v : list ConsoleEntry) (s : Session) : Session :=
  {| snapshot := snapshot s; listeners := listeners s; has_onError := has_onError s;
     abortController := abortController s; currentTextId := currentTextId s;
     toolMessageMap := toolMessageMap s;
     activeScreenshotToolId := activeScreenshotToolId s; ticks := ticks s;
     controllers := controllers s; calls := calls s; console := v |}.

Definition do_call (c : Call) (s : Session) : Session :=
  set_calls (c :: calls s) s.

Definition log (e : ConsoleEntry) (s : Session) : Session :=
  set_console (e :: console s) s.

(** The field initialisers and the constructor (lines 36-58). *)
Definition new_session (onError : bool) : Session :=
  {| snapshot := {| messages := []; input := []; status := ready;
                    isInitializing := true; streamUrl := None;
                    sandboxId := None |};
     listeners := []; has_onError := onError; abortController := None;
     currentTextId := None; toolMessageMap := ∅;
     activeScreenshotToolId := None; ticks := 0; controllers := 0;
     calls := []; console := [] |}.

(** ** The session store (lines 60-79 and 335-348) *)

Definition subscribe (listener : nat) (s : Session) : Session :=
  if bool_decide (listener ∈ listeners s) then s
  else set_listeners (listeners s ++ [listener]) s.

Definition unsubscribe (listener : nat) (s : Session) : Session :=
  set_listeners (filter (λ l, l ≠ listener) (listeners s)) s.

Definition getSnapshot (s : Session) : Snapshot := snapshot s.

(** [emit]: every listener is called once, in insertion order. *)
Definition emit (s : Session) : Session :=
  set_calls (rev (map (λ l, Notified l (snapshot s)) (listeners s)) ++ calls s) s.

Definition merge (old : Snapshot) (partial : PartialSnapshot) : Snapshot :=
  {| messages := default (messages old) (p_messages partial);
     input := default (input old) (p_input partial);
     status := default (status old) (p_status partial);
     isInitializing := default (isInitializing old) (p_isInitializing partial);
     streamUrl := default (streamUrl old) (p_streamUrl partial);
     sandboxId := default (sandboxId old) (p_sandboxId partial) |}.

Definition updateSnapshot (partial : PartialSnapshot) (s : Session) : Session :=
  emit (set_snapshot (merge (snapshot s) partial) s).

Definition replaceMessages (msgs : list Message) (s : Session) : Session :=
  updateSnapshot
    {| p_messages := Some msgs; p_input := None; p_status := None;
       p_isInitializing := None; p_streamUrl := None; p_sandboxId := None |} s.

Definition set_status (st : Status) : PartialSnapshot :=
  {| p_messages := None; p_input := None; p_status := Some st;
     p_isInitializing := None; p_streamUrl := None; p_sandboxId := None |}.

Definition setInput (value : jsstring) (s : Session) : Session :=
  updateSnapshot
    {| p_messages := None; p_input := Some value; p_status := None;
       p_isInitializing := None; p_streamUrl := None; p_sandboxId := None |} s.

Definition setInitializing (flag : bool) (s : Session) : Session :=
  updateSnapshot
    {| p_messages := None; p_input := None; p_status := None;
       p_isInitializing := Some flag; p_streamUrl := None; p_sandboxId := None |} s.

Definition updateDesktop (url sandbox : option jsstring) (s : Session) : Session :=
  updateSnapshot
    {| p_messages := None; p_input := None; p_status := None;
       p_isInitializing := None; p_streamUrl := Some url;
       p_sandboxId := Some sandbox |} s.

(** ** The transcript mutator (lines 251-333) *)

(** [!x] is false for a string field that holds a non-empty string. *)
Definition held (x : option jsstring) : option jsstring :=
  match x with
  | Some (c :: r) => Some (c :: r)
  | _ => None
  end.

Definition append_content (delta : jsstring) (message : Message) : Message :=
  {| id := id message; role := role message;
     content := Some (default [] (content message) ++ delta);
     parts := parts message |}.

Definition handleTextDelta (delta : jsstring) (s : Session) : Session :=
  match held (currentTextId s) with
  | None =>
      let assistantMessage :=
        {| id := str "assistant-" ++ Date_now (ticks s) ++ str "-"
                 ++ Math_random (ticks s);
           role := assistant; content := Some delta; parts := None |} in
      let s := set_ticks (S (ticks s)) s in
      let s := set_currentTextId (Some (id assistantMessage)) s in
      replaceMessages (messages (snapshot s) ++ [assistantMessage]) s
  | Some current =>
      let updatedMessages :=
        map (λ message,
               if bool_decide (id message ≠ current) then message
               else append_content delta message)
            (messages (snapshot s)) in
      replaceMessages updatedMessages s
  end.

(** [{ ...part.toolInvocation, ...updates, state }] *)
Definition merge_invocation (old : ToolInvocation) (updates : Updates)
    (st : ToolInvocationState) : ToolInvocation :=
  {| toolCallId := toolCallId old;
     toolName := default (toolName old) (u_toolName updates);
     state := st;
     args := default (args old) (u_args updates);
     argsText := default (argsText old) (u_argsText updates);
     toolResult := default (toolResult old) (u_result updates) |}.

Definition update_part (callId : jsstring) (st : ToolInvocationState)
    (updates : Updates) (part : Part) : Part :=
  match part with
  | OtherPart _ => part
  | ToolInvocationPart inv =>
      if bool_decide (toolCallId inv ≠ callId) then part
      else ToolInvocationPart (merge_invocation inv updates st)
  end.

Definition update_message (messageId callId : jsstring)
    (st : ToolInvocationState) (updates : Updates) (message : Message) : Message :=
  if bool_decide (id message ≠ messageId) then message
  else match parts message with
       | None => message
       | Some ps =>
           {| id := id message; role := role message;
              content := content message;
              parts := Some (map (update_part callId st updates) ps) |}
       end.

Definition handleToolEvent (callId : jsstring) (st : ToolInvocationState)
    (updates : Updates) (s : Session) : Session :=
  match held (toolMessageMap s !! callId) with
  | None =>
      let messageId := str "tool-" ++ callId ++ str "-" ++ Date_now (ticks s) in
      let s := set_ticks (S (ticks s)) s in
      let s := set_toolMessageMap (<[callId := messageId]> (toolMessageMap s)) s in
      let invocation :=
        ToolInvocationPart
          {| toolCallId := callId;
             toolName := default undefined (u_toolName updates);
             state := st;
             args := default undefined (u_args updates);
             argsText := default None (u_argsText updates);
             toolResult := default undefined (u_result updates) |} in
      let toolMessage :=
        {| id := messageId; role := assistant; content := Some [];
           parts := Some [invocation] |} in
      let s := set_currentTextId None s in
      replaceMessages (messages (snapshot s) ++ [toolMessage]) s
  | Some messageId =>
      let updatedMessages :=
        map (update_message messageId callId st updates)
            (messages (snapshot s)) in
      replaceMessages updatedMessages s
  end.

(** ** The protocol event dispatcher (lines 182-249) *)

(** How a call ends: it returns, it throws, or it reaches an operation on a
    value whose run-time type is not the one [StreamEvent] declares (a truthy
    [toolCallId], [delta], [textDelta] or [errorText] that is not a string).
    The embedding follows the code only on streams that respect the declared
    types, and says so with [Untyped] where one does not. *)
Inductive Completion :=
| Normal
| Throw (e : Thrown)
| Untyped.

Definition image_result (data : JSON Number) : JSON Number :=
  JObj [(str "type", JStr (str "image")); (str "data", data)].

(** The [switch] of [processLine], on the parsed event. *)
Definition dispatchEvent (event : JSON Number) (s : Session) : Session * Completion :=
  match event with
  | JNull => (s, Throw (ThrownError (str "TypeError") TypeError_message))
  | _ =>
    let type := prop event (str "type") in
    if is_string type (str "text-delta") then
      let delta :=
        js_or (prop event (str "delta"))
              (js_or (prop event (str "textDelta")) (Some (JStr []))) in
      if negb (truthy delta) then (s, Normal)
      else match delta with
           | Some (JStr d) => (handleTextDelta d s, Normal)
           | _ => (s, Untyped)
           end
    else if is_string type (str "tool-input-available") then
      let callId := prop event (str "toolCallId") in
      if negb (truthy callId) then (s, Normal)
      else match callId with
           | Some (JStr c) =>
               let input := prop event (str "input") in
               let s :=
                 handleToolEvent c call
                   {| u_toolName := Some (prop event (str "toolName"));
                      u_args := Some input;
                      u_argsText :=
                        Some (if truthy input then JSON_stringify <$> input
                              else None);
                      u_result := None |} s in
               let s :=
                 if is_string (opt_prop input (str "action")) (str "screenshot")
                 then set_activeScreenshotToolId (Some c) s else s in
               (s, Normal)
           | _ => (s, Untyped)
           end
    else if is_string type (str "tool-output-available") then
      let callId := prop event (str "toolCallId") in
      if negb (truthy callId) then (s, Normal)
      else match callId with
           | Some (JStr c) =>
               let output := prop event (str "output") in
               let s :=
                 handleToolEvent c result
                   {| u_toolName := None; u_args := None; u_argsText := None;
                      u_result := Some output |} s in
               let s :=
                 if is_string (opt_prop output (str "type")) (str "image")
                 then set_activeScreenshotToolId (Some c) s else s in
               (s, Normal)
           | _ => (s, Untyped)
           end
    else if is_string type (str "screenshot-update") then
      match held (activeScreenshotToolId s) with
      | None => (s, Normal)
      | Some active =>
          let screenshot := prop event (str "screenshot") in
          match screenshot with
          | Some data =>
              if negb (truthy screenshot) then (s, Normal)
              else (handleToolEvent active result
                      {| u_toolName := None; u_args := None; u_argsText := None;
                         u_result := Some (Some (image_result data)) |} s,
                    Normal)
          | None => (s, Normal)
          end
      end
    else if is_string type (str "finish") then
      (updateSnapshot (set_status ready) (set_currentTextId None s), Normal)
    else if is_string type (str "error") then
      match js_or (prop event (str "errorText"))
                  (Some (JStr (str "Streaming error"))) with
      | Some (JStr message) =>
          let s :=
            if has_onError s then do_call (ErrorReported (str "Error") message) s
            else s in
          (updateSnapshot (set_status ready) s, Normal)
      | _ => (s, Untyped)
      end
    else (s, Normal)
  end.

(** Lines 186-248: what [processLine] does with a line that is not blank. *)
Definition parseLine (line : jsstring) (s : Session) : Session * Completion :=
  match JSON_parse line with
  | None => (log ParseErrorLogged s, Normal)
  | Some event => dispatchEvent event s
  end.

Definition processLine (rawLine : jsstring) (s : Session) : Session * Completion :=
  let line := trim rawLine in
  if negb (nonempty line) then (s, Normal)
  else parseLine line s.

(** ** The incremental line framer (lines 135-157)

    The loops are written over any line handler, so that the framing can be
    studied apart from what a line does to the session. *)

Inductive ReadResult :=
| ReadChunk (value : list Byte.byte)
| ReadDone
| ReadRejected (e : Thrown).

(** How far the body of the [try] block got: it ran to its end, it was left
    by an exception, it left the typed fragment, or it is still awaiting a
    read that has not settled. *)
Inductive LoopResult :=
| Finished
| Abrupt (e : Thrown)
| OutOfModel
| Suspended.

(** [decoder.decode(value, { stream: true })] *)
Fixpoint decode (d : decoder_state) (value : list Byte.byte) : decoder_state * jsstring :=
  match value with
  | [] => (d, [])
  | b :: rest =>
      let '(d1, out) := decoder_step d b in
      let '(d2, out') := decode d1 rest in
      (d2, out ++ out')
  end.

Section Framer.
Context {St : Type} (onLine : jsstring -> St -> St * Completion).

(** The inner [while (newlineIndex !== -1)] loop.  Every iteration removes at
    least the newline from the buffer, so [S (length buffer)] iterations are
    enough (see [drainLines_unfold]). *)
Fixpoint drainLines_fuel (fuel : nat) (buffer : jsstring) (st : St)
    : jsstring * St * Completion :=
  match fuel with
  | 0 => (buffer, st, Normal)
  | S fuel' =>
      match indexOf newline buffer with
      | None => (buffer, st, Normal)
      | Some newlineIndex =>
          let line := take newlineIndex buffer in
          let buffer := drop (S newlineIndex) buffer in
          match onLine line st with
          | (st', Normal) => drainLines_fuel fuel' buffer st'
          | (st', c) => (buffer, st', c)
          end
      end
  end.

Definition drainLines (buffer : jsstring) (st : St) : jsstring * St * Completion :=
  drainLines_fuel (S (length buffer)) buffer st.

(** The outer [while (true)] loop, against the results of the successive
    [reader.read()] calls. *)
Fixpoint readLoop (reads : list ReadResult) (buffer : jsstring)
    (d : decoder_state) (st : St) : St * LoopResult :=
  match reads with
  | [] => (st, Suspended)
  | ReadRejected e :: _ => (st, Abrupt e)
  | ReadDone :: _ =>
      if nonempty (trim buffer) then
        match onLine buffer st with
        | (st', Normal) => (st', Finished)
        | (st', Throw e) => (st', Abrupt e)
        | (st', Untyped) => (st', OutOfModel)
        end
      else (st, Finished)
  | ReadChunk value :: reads' =>
      let '(d', text) := decode d value in
      match drainLines (buffer ++ text) st with
      | (buffer', st', Normal) => readLoop reads' buffer' d' st'
      | (_, st', Throw e) => (st', Abrupt e)
      | (_, st', Untyped) => (st', OutOfModel)
      end
  end.

End Framer.

(** ** The request lifecycle (lines 81-180) *)

Record SendOptions := { clearInput : option bool }.

Inductive FetchOutcome :=
| FetchRejected (e : Thrown)
| FetchResolved (ok : bool) (http_status : jsstring) (has_body : bool).

(** What the awaited promises of one turn settle to. *)
Record Transport := {
  fetched : option FetchOutcome;
  reads : list ReadResult;
}.

(** The three guards of lines 82-85. *)
Definition sendMessage_refused (text : jsstring) (s : Session) : bool :=
  negb (nonempty (trim text))
  || match status (snapshot s) with
     | streaming | submitted => true
     | ready => false
     end
  || isInitializing (snapshot s).

(** Lines 87-123: everything up to the first [await]. *)
Definition sendMessage_prologue (text : jsstring) (options : option SendOptions)
    (s : Session) : Session :=
  let trimmed := trim text in
  let userMessage :=
    {| id := str "user-" ++ Date_now (ticks s) ++ str "-" ++ Math_random (ticks s);
       role := user; content := Some trimmed; parts := None |} in
  let s := set_ticks (S (ticks s)) s in
  let newMessages := messages (snapshot s) ++ [userMessage] in
  let s := set_currentTextId None s in
  let s := set_activeScreenshotToolId None s in
  let s :=
    updateSnapshot
      {| p_messages := Some newMessages;
         p_input :=
           Some (match options with
                 | Some {| clearInput := Some true |} => []
                 | _ => input (snapshot s)
                 end);
         p_status := Some submitted;
         p_isInitializing := None; p_streamUrl := None; p_sandboxId := None |} s in
  let s :=
    match abortController s with
    | Some old => do_call (AbortSignalled old) s
    | None => s
    end in
  let s := set_abortController (Some (controllers s)) (set_controllers (S (controllers s)) s) in
  let s := do_call (FetchIssued newMessages (Date_now (ticks s)) (sandboxId (snapshot s))) s in
  set_ticks (S (ticks s)) s.

(** Lines 125-157: the rest of the [try] block. *)
Definition sendMessage_body (t : Transport) (s : Session) : Session * LoopResult :=
  match fetched t with
  | None => (s, Suspended)
  | Some (FetchRejected e) => (s, Abrupt e)
  | Some (FetchResolved ok http_status has_body) =>
      if negb ok then (s, Abrupt (ThrownError (str "Error") (str "HTTP " ++ http_status)))
      else if negb has_body then (s, Abrupt (ThrownError (str "Error") (str "No response body")))
      else
        let s := updateSnapshot (set_status streaming) s in
        readLoop processLine (reads t) [] decoder_init s
  end.

(** Lines 159-160. *)
Definition sendMessage_epilogue (s : Session) : Session :=
  updateSnapshot (set_status ready) (set_abortController None s).

(** Lines 161-171: the [catch] block. *)
Definition sendMessage_catch (error : Thrown) (s : Session) : Session :=
  let s :=
    match error with
    | ThrownError name message =>
        if bool_decide (name = str "AbortError") then log StreamingAbortedLogged s
        else
          let s := log (StreamingErrorLogged error) s in
          if has_onError s then do_call (ErrorReported name message) s else s
    | ThrownValue rendering =>
        let s := log (StreamingErrorLogged error) s in
        if has_onError s then do_call (ErrorReported (str "Error") rendering) s else s
    end in
  updateSnapshot (set_status ready) s.

(** Whether the promise returned by [sendMessage] has settled. *)
Inductive Settled := Resolved | Pending | Unmodelled.

Definition sendMessage (text : jsstring) (options : option SendOptions)
    (t : Transport) (s : Session) : Session * Settled :=
  if sendMessage_refused text s then (s, Resolved)
  else
    match sendMessage_body t (sendMessage_prologue text options s) with
    | (s', Finished) => (sendMessage_epilogue s', Resolved)
    | (s', Abrupt error) => (sendMessage_catch error s', Resolved)
    | (s', OutOfModel) => (s', Unmodelled)
    | (s', Suspended) => (s', Pending)
    end.

Definition stop (s : Session) : Session :=
  let s :=
    match abortController s with
    | Some controller =>
        set_abortController None (do_call (AbortSignalled controller) s)
    | None => s
    end in
  updateSnapshot (set_status ready) s.

(** ** Reference notions used by the statements *)

(** The lines of a text: those ended by a newline, and what follows the last
    newline. *)
Fixpoint split_lines (text : jsstring) : list jsstring * jsstring :=
  match text with
  | [] => ([], [])
  | c :: rest =>
      let '(ls, remainder) := split_lines rest in
      if N.eqb c newline then ([] :: ls, remainder)
      else match ls with
           | [] => ([], c :: remainder)
           | l :: ls' => ((c :: l) :: ls', remainder)
           end
  end.

Definition blank (l : jsstring) : bool := negb (nonempty (trim l)).

(** The events of a stream as section 4.3 of the specification words them:
    one per line ended by a newline, one more for a remainder that is not
    empty, the lines that are blank once trimmed left out. *)
Definition stream_events (text : jsstring) : list jsstring :=
  let '(ls, remainder) := split_lines text in
  filter (λ l, blank l = false)
    (ls ++ (if nonempty remainder then [remainder] else [])).

(** The text a decoder has produced once it has seen all of [bytes]. *)
Definition decoded (bytes : list Byte.byte) : jsstring :=
  (decode decoder_init bytes).2.

(** A handler run over a list of lines, up to the first one that does not
    return. *)
Fixpoint run_lines {St : Type} (onLine : jsstring -> St -> St * Completion)
    (ls : list jsstring) (st : St) : St * Completion :=
  match ls with
  | [] => (st, Normal)
  | l :: ls' =>
      match onLine l st with
      | (st', Normal) => run_lines onLine ls' st'
      | r => r
      end
  end.

Definition loop_result (c : Completion) : LoopResult :=
  match c with
  | Normal => Finished
  | Throw e => Abrupt e
  | Untyped => OutOfModel
  end.

(** A whole text framed at once: its lines in order, then its remainder
    unless it is blank. *)
Definition run_text {St : Type} (onLine : jsstring -> St -> St * Completion)
    (text : jsstring) (st : St) : St * LoopResult :=
  match run_lines onLine (split_lines text).1 st with
  | (st', Normal) =>
      if nonempty (trim (split_lines text).2) then
        (λ r, (r.1, loop_result r.2)) (onLine (split_lines text).2 st')
      else (st', Finished)
  | (st', c) => (st', loop_result c)
  end.

(** A line handler that records a line where [processLine] would parse it
    (lines 183-184 of [processLine], then the record). *)
Definition record_line (rawLine : jsstring) (seen : list jsstring)
    : list jsstring * Completion :=
  let line := trim rawLine in
  if negb (nonempty line) then (seen, Normal)
  else (seen ++ [line], Normal).

(** Each event, trimmed, handed once to [parseLine], in order. *)
Definition dispatch_events (events : list jsstring) (s : Session) : Session * LoopResult :=
  let '(s', c) := run_lines (λ e, parseLine (trim e)) events s in
  (s', loop_result c).

Definition processLines (ls : list jsstring) (s : Session) : Session * Completion :=
  run_lines processLine ls s.

(** The errors handed to the error callback, newest first. *)
Definition errors_reported (s : Session) : list (jsstring * jsstring) :=
  omap (λ c, match c with
             | ErrorReported name message => Some (name, message)
             | _ => None
             end) (calls s).

(** The session without its console output. *)
Definition quiet (s : Session) : Session := set_console [] s.

(** The tool invocations of a transcript. *)
Definition tool_parts (m : Message) : list ToolInvocation :=
  match parts m with
  | None => []
  | Some ps =>
      omap (λ p, match p with
                 | ToolInvocationPart inv => Some inv
                 | OtherPart _ => None
                 end) ps
  end.

Definition invocations (msgs : list Message) : list ToolInvocation :=
  msgs ≫= tool_parts.

Definition invocations_of (callId : jsstring) (msgs : list Message) : list ToolInvocation :=
  filter (λ inv, toolCallId inv = callId) (invocations msgs).

(** Whether a message holds an invocation of the call. *)
Definition carries (callId : jsstring) (m : Message) : bool :=
  existsb (λ inv, bool_decide (toolCallId inv = callId)) (tool_parts m).

(** The invocation [handleToolEvent] builds for a call it has not seen. *)
Definition new_invocation (callId : jsstring) (st : ToolInvocationState)
    (updates : Updates) : ToolInvocation :=
  {| toolCallId := callId;
     toolName := default undefined (u_toolName updates);
     state := st;
     args := default undefined (u_args updates);
     argsText := default None (u_argsText updates);
     toolResult := default undefined (u_result updates) |}.

(** The state that a tool event asks [handleToolEvent] for (lines 204 and
    217). *)
Definition tool_event_state (event : JSON Number) : option ToolInvocationState :=
  if is_string (prop event (str "type")) (str "tool-input-available") then Some call
  else if is_string (prop event (str "type")) (str "tool-output-available")
  then Some result
  else None.

(** What [update_part] does to the invocation of a part. *)
Definition update_invocation (callId : jsstring) (st : ToolInvocationState)
    (updates : Updates) (inv : ToolInvocation) : ToolInvocation :=
  if bool_decide (toolCallId inv ≠ callId) then inv
  else merge_invocation inv updates st.

(** The states a session can be in: a fresh controller, then any interleaving
    of calls of the public methods with the steps of the turns in flight. *)
Inductive reachable : Session -> Prop :=
| reach_new onError : reachable (new_session onError)
| reach_subscribe l s : reachable s -> reachable (subscribe l s)
| reach_unsubscribe l s : reachable s -> reachable (unsubscribe l s)
| reach_setInput v s : reachable s -> reachable (setInput v s)
| reach_setInitializing b s : reachable s -> reachable (setInitializing b s)
| reach_updateDesktop u b s : reachable s -> reachable (updateDesktop u b s)
| reach_send text options s :
    reachable s -> sendMessage_refused text s = false ->
    reachable (sendMessage_prologue text options s)
| reach_streaming s : reachable s -> reachable (updateSnapshot (set_status streaming) s)
| reach_line rawLine s : reachable s -> reachable (processLine rawLine s).1
| reach_epilogue s : reachable s -> reachable (sendMessage_epilogue s)
| reach_catch e s : reachable s -> reachable (sendMessage_catch e s)
| reach_stop s : reachable s -> reachable (stop s).

(** What ties the transcript to [toolMessageMap]: an invocation sits in the
    message its call id is mapped to, a mapped call id has one invocation and
    a message id that is not empty, and no invocation is [tool_streaming]. *)
Record consistent (s : Session) : Prop := {
  owner_mapped :
    ∀ m inv, m ∈ messages (snapshot s) -> inv ∈ tool_parts m ->
             toolMessageMap s !! toolCallId inv = Some (id m);
  mapped_once :
    ∀ c mid, toolMessageMap s !! c = Some mid ->
             mid ≠ [] ∧ length (invocations_of c (messages (snapshot s))) = 1;
  never_streaming :
    ∀ inv, inv ∈ invocations (messages (snapshot s)) -> state inv ≠ tool_streaming;
}.

End Model.

(** ** A platform to run the model on

    The theorems below hold for every [Platform].  To evaluate the model on
    concrete streams, this instance implements the platform for the fragment
    of JSON without number literals (a number literal is refused), with a
    UTF-8 streaming decoder and a clock that counts. *)

Module Fragment.

Definition json : Type := JSON Empty_set.

Definition is_json_space (c : N) : bool :=
  existsb (N.eqb c) [32; 9; 10; 13]%N.

Fixpoint skip_ws (inp : jsstring) : jsstring :=
  match inp with
  | c :: rest => if is_json_space c then skip_ws rest else inp
  | [] => []
  end.

Definition hex_digit (c : N) : option N :=
  if ((48 <=? c) && (c <=? 57))%N then Some (c - 48)%N
  else if ((65 <=? c) && (c <=? 70))%N then Some (c - 55)%N
  else if ((97 <=? c) && (c <=? 102))%N then Some (c - 87)%N
  else None.

(** The escapes of one character: quote, backslash, slash, b, f, n, r, t. *)
Definition simple_escape (c : N) : option N :=
  if N.eqb c 34 then Some 34%N
  else if N.eqb c 92 then Some 92%N
  else if N.eqb c 47 then Some 47%N
  else if N.eqb c 98 then Some 8%N
  else if N.eqb c 102 then Some 12%N
  else if N.eqb c 110 then Some 10%N
  else if N.eqb c 114 then Some 13%N
  else if N.eqb c 116 then Some 9%N
  else None.

(** The characters of a string literal after its opening quote, and what
    follows the closing quote. *)
Fixpoint parse_string (inp : jsstring) : option (jsstring * jsstring) :=
  match inp with
  | [] => None
  | c :: rest =>
      if N.eqb c 34 then Some ([], rest)
      else if N.eqb c 92 then
        match rest with
        | 117%N :: a :: b :: c' :: d :: rest' =>
            match hex_digit a, hex_digit b, hex_digit c', hex_digit d with
            | Some x3, Some x2, Some x1, Some x0 =>
                '(s, r) ← parse_string rest';
                Some ((x3 * 4096 + x2 * 256 + x1 * 16 + x0)%N :: s, r)
            | _, _, _, _ => None
            end
        | e :: rest' =>
            u ← simple_escape e;
            '(s, r) ← parse_string rest';
            Some (u :: s, r)
        | [] => None
        end
      else if (c <? 32)%N then None
      else '(s, r) ← parse_string rest; Some (c :: s, r)
  end.

(** A later member replaces an earlier one with the same key, in place. *)
Fixpoint put (k : jsstring) (v : json) (fields : list (jsstring * json))
    : list (jsstring * json) :=
  match fields with
  | [] => [(k, v)]
  | (k', v') :: rest =>
      if bool_decide (k' = k) then (k', v) :: rest else (k', v') :: put k v rest
  end.

Fixpoint parse_value (fuel : nat) (inp : jsstring) : option (json * jsstring) :=
  match fuel with
  | 0 => None
  | S fuel' =>
      match skip_ws inp with
      | 110%N :: 117%N :: 108%N :: 108%N :: rest => Some (JNull, rest)
      | 116%N :: 114%N :: 117%N :: 101%N :: rest => Some (JBool true, rest)
      | 102%N :: 97%N :: 108%N :: 115%N :: 101%N :: rest => Some (JBool false, rest)
      | 34%N :: rest => '(s, r) ← parse_string rest; Some (JStr s, r)
      | 91%N :: rest =>
          match skip_ws rest with
          | 93%N :: rest' => Some (JArr [], rest')
          | _ => parse_elements fuel' rest []
          end
      | 123%N :: rest =>
          match skip_ws rest with
          | 125%N :: rest' => Some (JObj [], rest')
          | _ => parse_members fuel' rest []
          end
      | _ => None
      end
  end
with parse_elements (fuel : nat) (inp : jsstring) (acc : list json)
    : option (json * jsstring) :=
  match fuel with
  | 0 => None
  | S fuel' =>
      '(v, rest) ← parse_value fuel' inp;
      match skip_ws rest with
      | 44%N :: rest' => parse_elements fuel' rest' (acc ++ [v])
      | 93%N :: rest' => Some (JArr (acc ++ [v]), rest')
      | _ => None
      end
  end
with parse_members (fuel : nat) (inp : jsstring) (acc : list (jsstring * json))
    : option (json * jsstring) :=
  match fuel with
  | 0 => None
  | S fuel' =>
      match skip_ws inp with
      | 34%N :: rest =>
          '(k, rest) ← parse_string rest;
          match skip_ws rest with
          | 58%N :: rest =>
              '(v, rest) ← parse_value fuel' rest;
              match skip_ws rest with
              | 44%N :: rest' => parse_members fuel' rest' (put k v acc)
              | 125%N :: rest' => Some (JObj (put k v acc), rest')
              | _ => None
              end
          | _ => None
          end
      | _ => None
      end
  end.

Definition parse (text : jsstring) : option json :=
  '(v, rest) ← parse_value (S (length text)) text;
  match skip_ws rest with
  | [] => Some v
  | _ => None
  end.

Definition hex_char (d : N) : N :=
  if (d <? 10)%N then (48 + d)%N else (87 + d)%N.

Definition unicode_escape (c : N) : jsstring :=
  [92; 117; hex_char (c / 4096 mod 16); hex_char (c / 256 mod 16);
   hex_char (c / 16 mod 16); hex_char (c mod 16)]%N.

Definition is_high_surrogate (c : N) : bool := ((55296 <=? c) && (c <=? 56319))%N.
Definition is_low_surrogate (c : N) : bool := ((56320 <=? c) && (c <=? 57343))%N.

Fixpoint quote_chars (s : jsstring) : jsstring :=
  match s with
  | [] => []
  | c :: rest =>
      if N.eqb c 34 then [92; 34]%N ++ quote_chars rest
      else if N.eqb c 92 then [92; 92]%N ++ quote_chars rest
      else if N.eqb c 8 then [92; 98]%N ++ quote_chars rest
      else if N.eqb c 12 then [92; 102]%N ++ quote_chars rest
      else if N.eqb c 10 then [92; 110]%N ++ quote_chars rest
      else if N.eqb c 13 then [92; 114]%N ++ quote_chars rest
      else if N.eqb c 9 then [92; 116]%N ++ quote_chars rest
      else if (c <? 32)%N then unicode_escape c ++ quote_chars rest
      else if is_high_surrogate c then
        match rest with
        | c' :: rest' =>
            if is_low_surrogate c' then c :: c' :: quote_chars rest'
            else unicode_escape c ++ quote_chars rest
        | [] => unicode_escape c
        end
      else if is_low_surrogate c then unicode_escape c ++ quote_chars rest
      else c :: quote_chars rest
  end.

Definition quote (s : jsstring) : jsstring := [34%N] ++ quote_chars s ++ [34%N].

Fixpoint join (sep : jsstring) (items : list jsstring) : jsstring :=
  match items with
  | [] => []
  | [x] => x
  | x :: rest => x ++ sep ++ join sep rest
  end.

(** [JSON.stringify(v, null, 2)] at a given indentation. *)
Fixpoint print (indent : nat) (v : json) : jsstring :=
  let inner := replicate (indent + 2) 32%N in
  let sep := [44; 10]%N ++ inner in
  match v with
  | JNull => str "null"
  | JBool true => str "true"
  | JBool false => str "false"
  | JNum n => match n with end
  | JStr s => quote s
  | JArr [] => str "[]"
  | JArr items =>
      [91; 10]%N ++ inner ++ join sep (map (print (indent + 2)) items)
      ++ [10%N] ++ replicate indent 32%N ++ [93%N]
  | JObj [] => str "{}"
  | JObj fields =>
      [123; 10]%N ++ inner
      ++ join sep (map (λ kv, quote kv.1 ++ [58; 32]%N ++ print (indent + 2) kv.2) fields)
      ++ [10%N] ++ replicate indent 32%N ++ [125%N]
  end.

Definition stringify (v : json) : jsstring := print 0 v.

(** The UTF-8 decoder of the Encoding standard, in replacement mode, followed
    by the removal of a leading byte order mark and the conversion of code
    points to UTF-16 code units. *)
Record utf8 := {
  code_point : N;
  bytes_seen : N;
  bytes_needed : N;
  lower : N;
  upper : N;
  bom_pending : bool;
}.

Definition utf8_init : utf8 :=
  {| code_point := 0; bytes_seen := 0; bytes_needed := 0;
     lower := 128; upper := 191; bom_pending := true |}.

Definition utf8_reset (bom : bool) : utf8 :=
  {| code_point := 0; bytes_seen := 0; bytes_needed := 0;
     lower := 128; upper := 191; bom_pending := bom |}.

Definition code_units (cp : N) : jsstring :=
  if (cp <? 65536)%N then [cp]
  else [(55296 + (cp - 65536) / 1024)%N; (56320 + (cp - 65536) mod 1024)%N].

(** One code point leaves the decoder. *)
Definition emit_code_point (bom : bool) (cp : N) : utf8 * jsstring :=
  (utf8_reset false, if bom && N.eqb cp 65279 then [] else code_units cp).

Definition utf8_lead (bom : bool) (b : N) : utf8 * jsstring :=
  if (b <=? 127)%N then emit_code_point bom b
  else if ((194 <=? b) && (b <=? 223))%N then
    ({| code_point := N.land b 31; bytes_seen := 0; bytes_needed := 1;
        lower := 128; upper := 191; bom_pending := bom |}, [])
  else if ((224 <=? b) && (b <=? 239))%N then
    ({| code_point := N.land b 15; bytes_seen := 0; bytes_needed := 2;
        lower := if N.eqb b 224 then 160 else 128;
        upper := if N.eqb b 237 then 159 else 191; bom_pending := bom |}, [])
  else if ((240 <=? b) && (b <=? 244))%N then
    ({| code_point := N.land b 7; bytes_seen := 0; bytes_needed := 3;
        lower := if N.eqb b 240 then 144 else 128;
        upper := if N.eqb b 244 then 143 else 191; bom_pending := bom |}, [])
  else emit_code_point bom 65533.

Definition utf8_step (d : utf8) (byte : Byte.byte) : utf8 * jsstring :=
  let b := Byte.to_N byte in
  if N.eqb (bytes_needed d) 0 then utf8_lead (bom_pending d) b
  else if ((b <? lower d) || (upper d <? b))%N then
    (* the byte is put back and read again after the replacement character *)
    let '(d1, out1) := emit_code_point (bom_pending d) 65533 in
    let '(d2, out2) := utf8_lead (bom_pending d1) b in
    (d2, out1 ++ out2)
  else
    let cp := N.lor (N.shiftl (code_point d) 6) (N.land b 63) in
    if N.eqb (bytes_seen d + 1) (bytes_needed d) then emit_code_point (bom_pending d) cp
    else
      ({| code_point := cp; bytes_seen := bytes_seen d + 1;
          bytes_needed := bytes_needed d; lower := 128; upper := 191;
          bom_pending := bom_pending d |}, []).

Fixpoint digits (u : Decimal.uint) : jsstring :=
  match u with
  | Decimal.Nil => []
  | Decimal.D0 u => 48%N :: digits u
  | Decimal.D1 u => 49%N :: digits u
  | Decimal.D2 u => 50%N :: digits u
  | Decimal.D3 u => 51%N :: digits u
  | Decimal.D4 u => 52%N :: digits u
  | Decimal.D5 u => 53%N :: digits u
  | Decimal.D6 u => 54%N :: digits u
  | Decimal.D7 u => 55%N :: digits u
  | Decimal.D8 u => 56%N :: digits u
  | Decimal.D9 u => 57%N :: digits u
  end.

#[export] Instance platform : Platform := {|
  Number := Empty_set;
  Number_falsy := λ n, match n with end;
  JSON_parse := parse;
  JSON_stringify := stringify;
  Date_now := λ n, digits (Nat.to_uint n);
  Math_random := λ n, str "0." ++ digits (Nat.to_uint n);
  TypeError_message := str "Cannot read properties of null (reading 'type')";
  decoder_state := utf8;
  decoder_init := utf8_init;
  decoder_step := utf8_step;
|}.

End Fragment.

(** A line of the wire protocol, written with an apostrophe wherever the wire
    has a double quote. *)
Definition wire (s : string) : jsstring :=
  map (λ c, if N.eqb c 39 then 34%N else c) (str s).

(** ** Concrete sessions, transports and lines for the examples *)

(** A controller with an error callback and one listener, once the desktop
    has been initialised. *)
Definition idle_session : @Session Fragment.platform :=
  setInitializing false (subscribe 0 (new_session true)).

(** A response with status 500. *)
Definition failing_transport : Transport :=
  {| fetched := Some (FetchResolved false (str "500") true); reads := [] |}.

(** A request that has not been answered yet. *)
Definition silent_transport : Transport :=
  {| fetched := None; reads := [] |}.

(** The lines of the examples of section 8 of the specification. *)
Definition delta_He : jsstring := wire "{'type':'text-delta','delta':'He'}".
Definition delta_llo : jsstring := wire "{'type':'text-delta','delta':'llo'}".
Definition input_a : jsstring :=
  wire "{'type':'tool-input-available','toolCallId':'a','toolName':'x','input':{}}".
Definition output_a : jsstring :=
  wire "{'type':'tool-output-available','toolCallId':'a','output':{'ok':true}}".
Definition not_json : jsstring := str "not json".

(** The bytes of a text of code units below 128. *)
Definition ascii_bytes (text : jsstring) : list Byte.byte :=
  map (λ c, default Byte.x00 (Byte.of_N c)) text.

(** The two text-delta lines, each ended by a newline, as one body. *)
Definition hello_body : list Byte.byte :=
  ascii_bytes (delta_He ++ [newline] ++ delta_llo ++ [newline]).

(** ** Observations and invariants used by the further properties *)

(** The kinds of event the dispatcher knows: the [case] labels of lines
    195-237. *)
Definition event_kinds : list jsstring :=
  [str "text-delta"; str "tool-input-available"; str "tool-output-available";
   str "screenshot-update"; str "finish"; str "error"].

Section Observations.
Context `{Platform}.

(** Whether a tool event makes its call the target of the screenshot
    updates (the tests of lines 209 and 218). *)
Definition screenshot_target (event : JSON Number) : bool :=
  if is_string (prop event (str "type")) (str "tool-input-available") then
    is_string (opt_prop (prop event (str "input")) (str "action")) (str "screenshot")
  else if is_string (prop event (str "type")) (str "tool-output-available") then
    is_string (opt_prop (prop event (str "output")) (str "type")) (str "image")
  else false.

(** The id and role of each message, in order. *)
Definition skeleton (msgs : list Message) : list (jsstring * Role) :=
  (λ m, (id m, role m)) <$> msgs.



(** The abort controllers told to abort, newest first. *)
Definition aborts (s : Session) : list nat :=
  omap (λ c, match c with
             | AbortSignalled controller => Some controller
             | _ => None
             end) (calls s).

(** The requests issued, newest first: the messages and the sandbox id of
    each body. *)
Definition requests (s : Session) : list (list Message * option jsstring) :=
  omap (λ c, match c with
             | FetchIssued body_messages _ body_sandboxId =>
                 Some (body_messages, body_sandboxId)
             | _ => None
             end) (calls s).

(** The snapshot [getSnapshot] gave a listener at each of its calls, newest
    first. *)
Definition notified (listener : nat) (s : Session) : list Snapshot :=
  omap (λ c, match c with
             | Notified l seen => if bool_decide (l = listener) then Some seen else None
             | _ => None
             end) (calls s).


(** The abort controllers are numbered as they are made: the one in use and
    those told to abort were made before the next one will be. *)
Record controllers_numbered (s : Session) : Prop := {
  current_made : ∀ c, abortController s = Some c -> c < controllers s;
  aborted_made : ∀ c, c ∈ aborts s -> c < controllers s;
}.

(** The parts of a session that belong to the store and to the request
    lifecycle rather than to the stream: the draft input, the flag, the
    desktop fields, the listeners, the error callback, the abort controller
    and the record of the aborts and of the requests. *)
Definition outside_stream (s : Session) :=
  (input (snapshot s), isInitializing (snapshot s), streamUrl (snapshot s),
   sandboxId (snapshot s), listeners s, has_onError s, abortController s,
   controllers s, aborts s, requests s).

(** The updates a tool event hands to [handleToolEvent] (lines 204-208 and
    217). *)
Definition tool_event_updates (event : JSON Number) : Updates :=
  if is_string (prop event (str "type")) (str "tool-input-available") then
    {| u_toolName := Some (prop event (str "toolName"));
       u_args := Some (prop event (str "input"));
       u_argsText :=
         Some (if truthy (prop event (str "input"))
               then JSON_stringify <$> prop event (str "input")
               else None);
       u_result := None |}
  else
    {| u_toolName := None; u_args := None; u_argsText := None;
       u_result := Some (prop event (str "output")) |}.

End Observations.

(** ** What a line asks of a tool call (lines 201-231) *)

Section Requests.
Context `{Platform}.





End Requests.

(** * Properties *)

Section Properties.
Context `{Platform}.

(** ** The store *)

Lemma snapshot_updateSnapshot partial s :
  snapshot (updateSnapshot partial s) = merge (snapshot s) partial.
Proof. reflexivity. Qed.

Lemma messages_set_status st s :
  messages (snapshot (updateSnapshot (set_status st) s)) = messages (snapshot s).
Proof. reflexivity. Qed.

Lemma status_set_status st s :
  status (snapshot (updateSnapshot (set_status st) s)) = st.
Proof. reflexivity. Qed.

Lemma messages_replaceMessages msgs s :
  messages (snapshot (replaceMessages msgs s)) = msgs.
Proof. reflexivity. Qed.

Lemma toolMessageMap_replaceMessages msgs s :
  toolMessageMap (replaceMessages msgs s) = toolMessageMap s.
Proof. reflexivity. Qed.

Lemma toolMessageMap_updateSnapshot partial s :
  toolMessageMap (updateSnapshot partial s) = toolMessageMap s.
Proof. reflexivity. Qed.

(** ** The request lifecycle *)

Lemma sendMessage_refused_false text s :
  trim text ≠ [] -> status (snapshot s) = ready ->
  isInitializing (snapshot s) = false ->
  sendMessage_refused text s = false.
Proof.
  intros Htext Hst Hinit. unfold sendMessage_refused.
  rewrite Hst, Hinit. destruct (trim text); [done | reflexivity].
Qed.

(** C5: for an input that does not trim to the empty string, [sendMessage]
    called while the status is [ready] and [isInitializing] is false runs up
    to its first await having appended one user message, whose content is the
    trimmed text, after the messages that were there, which are unchanged,
    and having moved the status from [ready] to [submitted]. *)
Theorem sendMessage_appends_user_message text options pending_reads s :
  trim text ≠ [] ->
  status (snapshot s) = ready ->
  isInitializing (snapshot s) = false ->
  ∃ s' userMessage,
    sendMessage text options {| fetched := None; reads := pending_reads |} s
      = (s', Pending)
    ∧ messages (snapshot s') = messages (snapshot s) ++ [userMessage]
    ∧ role userMessage = user
    ∧ content userMessage = Some (trim text)
    ∧ parts userMessage = None
    ∧ status (snapshot s') = submitted.
Proof.
  intros Htext Hst Hinit.
  pose proof (sendMessage_refused_false text s Htext Hst Hinit) as Hgo.
  exists (sendMessage_prologue text options s),
    {| id := str "user-" ++ Date_now (ticks s) ++ str "-" ++ Math_random (ticks s);
       role := user; content := Some (trim text); parts := None |}.
  unfold sendMessage. rewrite Hgo. cbn [sendMessage_body fetched].
  split; [reflexivity |].
  unfold sendMessage_prologue. cbn. destruct (abortController s);
    repeat split; reflexivity.
Qed.

(** C6: [sendMessage] changes nothing (the session, and so the snapshot, is
    what it was, and no call reaches a listener) when the input trims to the
    empty string, or the status is [submitted] or [streaming], or
    [isInitializing] is true. *)
Theorem sendMessage_noop text options t s :
  trim text = []
  ∨ status (snapshot s) = submitted
  ∨ status (snapshot s) = streaming
  ∨ isInitializing (snapshot s) = true ->
  sendMessage text options t s = (s, Resolved).
Proof.
  intros Hcase. unfold sendMessage.
  assert (sendMessage_refused text s = true) as ->; [| reflexivity].
  unfold sendMessage_refused.
  destruct Hcase as [-> | [-> | [-> | ->]]]; cbn;
    rewrite ?orb_true_r; reflexivity.
Qed.

Lemma stop_ready s :
  status (snapshot (stop s)) = ready
  ∧ messages (snapshot (stop s)) = messages (snapshot s).
Proof. unfold stop. destruct (abortController s); split; reflexivity. Qed.

Lemma catch_ready e s :
  status (snapshot (sendMessage_catch e s)) = ready
  ∧ messages (snapshot (sendMessage_catch e s)) = messages (snapshot s).
Proof.
  unfold sendMessage_catch. rewrite status_set_status, messages_set_status.
  split; [reflexivity |].
  destruct e as [name message | rendering]; [case_bool_decide |]; cbn;
    try reflexivity; destruct (has_onError s); reflexivity.
Qed.

(** C8: however a turn ends early, the status is [ready] afterwards and the
    messages are what the mutations applied so far had made them: [stop]
    leaves the messages alone and sets the status; so does the [catch] block,
    for a cancellation as for any other failure; and a turn whose [try] block
    is left by an exception settles through that [catch] block. *)
Theorem early_end_restores_ready :
  (∀ s, status (snapshot (stop s)) = ready
        ∧ messages (snapshot (stop s)) = messages (snapshot s))
  ∧ (∀ e s, status (snapshot (sendMessage_catch e s)) = ready
            ∧ messages (snapshot (sendMessage_catch e s)) = messages (snapshot s))
  ∧ (∀ text options t s s1 e,
       sendMessage_refused text s = false ->
       sendMessage_body t (sendMessage_prologue text options s) = (s1, Abrupt e) ->
       ∃ s2, sendMessage text options t s = (s2, Resolved)
             ∧ status (snapshot s2) = ready
             ∧ messages (snapshot s2) = messages (snapshot s1)).
Proof.
  split; [exact stop_ready |]. split; [exact catch_ready |].
  intros text options t s s1 e Hgo Hbody.
  exists (sendMessage_catch e s1). unfold sendMessage. rewrite Hgo, Hbody.
  split; [reflexivity | apply catch_ready].
Qed.

(** ** The dispatcher, one kind of event at a time *)

Lemma processLine_blank rawLine s :
  trim rawLine = [] -> processLine rawLine s = (s, Normal).
Proof. unfold processLine. intros ->. reflexivity. Qed.

Lemma processLine_parsed rawLine event s :
  trim rawLine ≠ [] -> JSON_parse (trim rawLine) = Some event ->
  processLine rawLine s = dispatchEvent event s.
Proof.
  unfold processLine, parseLine. intros Hline ->.
  destruct (trim rawLine); [done | reflexivity].
Qed.

Lemma processLine_malformed rawLine s :
  trim rawLine ≠ [] -> JSON_parse (trim rawLine) = None ->
  processLine rawLine s = (log ParseErrorLogged s, Normal).
Proof.
  unfold processLine, parseLine. intros Hline ->.
  destruct (trim rawLine); [done | reflexivity].
Qed.

Lemma dispatch_text_delta event s :
  prop event (str "type") = Some (JStr (str "text-delta")) ->
  dispatchEvent event s =
    let delta :=
      js_or (prop event (str "delta"))
            (js_or (prop event (str "textDelta")) (Some (JStr []))) in
    if negb (truthy delta) then (s, Normal)
    else match delta with
         | Some (JStr d) => (handleTextDelta d s, Normal)
         | _ => (s, Untyped)
         end.
Proof.
  intros Htype. destruct event; try discriminate Htype.
  unfold dispatchEvent. rewrite Htype. reflexivity.
Qed.

Lemma dispatch_tool_input event c s :
  prop event (str "type") = Some (JStr (str "tool-input-available")) ->
  prop event (str "toolCallId") = Some (JStr c) -> c ≠ [] ->
  dispatchEvent event s =
    (let input := prop event (str "input") in
     let s :=
       handleToolEvent c call
         {| u_toolName := Some (prop event (str "toolName"));
            u_args := Some input;
            u_argsText :=
              Some (if truthy input then JSON_stringify <$> input else None);
            u_result := None |} s in
     if is_string (opt_prop input (str "action")) (str "screenshot")
     then set_activeScreenshotToolId (Some c) s else s,
     Normal).
Proof.
  intros Htype Hid Hc. destruct event; try discriminate Htype.
  unfold dispatchEvent. rewrite Htype, Hid.
  destruct c; [done |]. cbn [truthy nonempty negb].
  change (is_string (Some (JStr (str "tool-input-available"))) (str "text-delta"))
    with false.
  change (is_string (Some (JStr (str "tool-input-available")))
            (str "tool-input-available")) with true.
  cbv iota. destruct (is_string _ _); reflexivity.
Qed.

Lemma dispatch_tool_output event c s :
  prop event (str "type") = Some (JStr (str "tool-output-available")) ->
  prop event (str "toolCallId") = Some (JStr c) -> c ≠ [] ->
  dispatchEvent event s =
    (let output := prop event (str "output") in
     let s :=
       handleToolEvent c result
         {| u_toolName := None; u_args := None; u_argsText := None;
            u_result := Some output |} s in
     if is_string (opt_prop output (str "type")) (str "image")
     then set_activeScreenshotToolId (Some c) s else s,
     Normal).
Proof.
  intros Htype Hid Hc. destruct event; try discriminate Htype.
  unfold dispatchEvent. rewrite Htype, Hid.
  destruct c; [done |]. cbn [truthy nonempty negb].
  change (is_string (Some (JStr (str "tool-output-available"))) (str "text-delta"))
    with false.
  change (is_string (Some (JStr (str "tool-output-available")))
            (str "tool-input-available")) with false.
  change (is_string (Some (JStr (str "tool-output-available")))
            (str "tool-output-available")) with true.
  cbv iota. destruct (is_string _ _); reflexivity.
Qed.

Lemma dispatch_screenshot_update event s :
  prop event (str "type") = Some (JStr (str "screenshot-update")) ->
  dispatchEvent event s =
    match held (activeScreenshotToolId s) with
    | None => (s, Normal)
    | Some active =>
        let screenshot := prop event (str "screenshot") in
        match screenshot with
        | Some data =>
            if negb (truthy screenshot) then (s, Normal)
            else (handleToolEvent active result
                    {| u_toolName := None; u_args := None; u_argsText := None;
                       u_result := Some (Some (image_result data)) |} s,
                  Normal)
        | None => (s, Normal)
        end
    end.
Proof.
  intros Htype. destruct event; try discriminate Htype.
  unfold dispatchEvent. rewrite Htype. reflexivity.
Qed.

(** C9: a screenshot-update event processed while [activeScreenshotToolId]
    is unset, or whose screenshot payload is missing, is ignored: the session
    after the line is the session before it, so the snapshot, the messages,
    the correlation state and the record of listener calls are unchanged. *)
Theorem screenshot_update_ignored rawLine event s :
  JSON_parse (trim rawLine) = Some event ->
  prop event (str "type") = Some (JStr (str "screenshot-update")) ->
  activeScreenshotToolId s = None ∨ prop event (str "screenshot") = None ->
  processLine rawLine s = (s, Normal).
Proof.
  intros Hparse Htype Hcase.
  destruct (decide (trim rawLine = [])) as [Hblank | Hline].
  { by apply processLine_blank. }
  rewrite (processLine_parsed _ _ _ Hline Hparse).
  rewrite (dispatch_screenshot_update _ _ Htype).
  destruct Hcase as [-> | ->]; [reflexivity |].
  by destruct (held _).
Qed.

(** C10: a text-delta event whose [delta] and [textDelta] are both absent or
    empty is dropped: the session after the line is the session before it, so
    no message is opened or touched and no listener is called. *)
Theorem empty_text_delta_dropped rawLine event s :
  JSON_parse (trim rawLine) = Some event ->
  prop event (str "type") = Some (JStr (str "text-delta")) ->
  prop event (str "delta") = None ∨ prop event (str "delta") = Some (JStr []) ->
  prop event (str "textDelta") = None
  ∨ prop event (str "textDelta") = Some (JStr []) ->
  processLine rawLine s = (s, Normal).
Proof.
  intros Hparse Htype Hdelta HtextDelta.
  destruct (decide (trim rawLine = [])) as [Hblank | Hline].
  { by apply processLine_blank. }
  rewrite (processLine_parsed _ _ _ Hline Hparse).
  rewrite (dispatch_text_delta _ _ Htype).
  destruct Hdelta as [-> | ->], HtextDelta as [-> | ->]; reflexivity.
Qed.

(** ** Text accumulation *)

Lemma dispatch_text_delta_string event d s :
  prop event (str "type") = Some (JStr (str "text-delta")) ->
  prop event (str "delta") = Some (JStr d) -> d ≠ [] ->
  dispatchEvent event s = (handleTextDelta d s, Normal).
Proof.
  intros Htype Hdelta Hd. rewrite (dispatch_text_delta _ _ Htype), Hdelta.
  destruct d; [done | reflexivity].
Qed.

Lemma handleTextDelta_open delta s :
  held (currentTextId s) = None ->
  handleTextDelta delta s =
    let assistantMessage :=
      {| id := str "assistant-" ++ Date_now (ticks s) ++ str "-"
               ++ Math_random (ticks s);
         role := assistant; content := Some delta; parts := None |} in
    replaceMessages (messages (snapshot s) ++ [assistantMessage])
      (set_currentTextId (Some (id assistantMessage)) (set_ticks (S (ticks s)) s)).
Proof. unfold handleTextDelta. intros ->. reflexivity. Qed.

Lemma handleTextDelta_append delta current s :
  held (currentTextId s) = Some current ->
  handleTextDelta delta s =
    replaceMessages
      (map (λ message,
              if bool_decide (id message ≠ current) then message
              else append_content delta message)
           (messages (snapshot s))) s.
Proof. unfold handleTextDelta. intros ->. reflexivity. Qed.

(** C4: two text-delta lines processed with no text accumulation open add
    one assistant message, whose content is the first delta followed by the
    second (for the deltas "He" and "llo": "Hello"); the messages that were
    there stay as many, and stay what they were when none of them carries the
    id drawn for the new message. *)
Theorem text_deltas_accumulate line1 line2 event1 event2 d1 d2 s :
  currentTextId s = None ->
  trim line1 ≠ [] -> JSON_parse (trim line1) = Some event1 ->
  prop event1 (str "type") = Some (JStr (str "text-delta")) ->
  prop event1 (str "delta") = Some (JStr d1) -> d1 ≠ [] ->
  trim line2 ≠ [] -> JSON_parse (trim line2) = Some event2 ->
  prop event2 (str "type") = Some (JStr (str "text-delta")) ->
  prop event2 (str "delta") = Some (JStr d2) -> d2 ≠ [] ->
  ∃ s1 s2 older added,
    processLine line1 s = (s1, Normal)
    ∧ processLine line2 s1 = (s2, Normal)
    ∧ messages (snapshot s2) = older ++ [added]
    ∧ length older = length (messages (snapshot s))
    ∧ role added = assistant
    ∧ content added = Some (d1 ++ d2)
    ∧ parts added = None
    ∧ ((∀ m, m ∈ messages (snapshot s) -> id m ≠ id added) ->
       older = messages (snapshot s)).
Proof.
  intros Hclosed Hline1 Hparse1 Htype1 Hdelta1 Hd1 Hline2 Hparse2 Htype2 Hdelta2 Hd2.
  set (newId := str "assistant-" ++ Date_now (ticks s) ++ str "-"
                ++ Math_random (ticks s)).
  set (keep := λ message : Message,
         if bool_decide (id message ≠ newId) then message
         else append_content d2 message).
  exists (handleTextDelta d1 s), (handleTextDelta d2 (handleTextDelta d1 s)),
    (map keep (messages (snapshot s))),
    {| id := newId; role := assistant; content := Some (d1 ++ d2); parts := None |}.
  rewrite (processLine_parsed _ _ _ Hline1 Hparse1),
    (dispatch_text_delta_string _ _ _ Htype1 Hdelta1 Hd1).
  rewrite (processLine_parsed _ _ _ Hline2 Hparse2),
    (dispatch_text_delta_string _ _ _ Htype2 Hdelta2 Hd2).
  assert (held (currentTextId s) = None) as Hopen by (by rewrite Hclosed).
  rewrite (handleTextDelta_open d1 s Hopen). cbv zeta.
  rewrite (handleTextDelta_append d2 newId) by reflexivity.
  rewrite messages_replaceMessages.
  change (messages (snapshot (replaceMessages ?msgs _))) with msgs.
  rewrite map_app. cbn [map id]. rewrite bool_decide_false by (by intros []).
  repeat split; try reflexivity.
  - by rewrite length_map.
  - intros Hfresh. rewrite <- (map_id (messages (snapshot s))) at 2.
    apply map_ext_in. intros m Hm%list_elem_of_In.
    unfold keep. rewrite bool_decide_true; [done |].
    apply (Hfresh m Hm).
Qed.

(** ** Malformed lines

    Nothing reads the console, so a step commutes with any change of it. *)

Lemma updateSnapshot_console partial c s :
  updateSnapshot partial (set_console c s) = set_console c (updateSnapshot partial s).
Proof. reflexivity. Qed.

Lemma handleTextDelta_console delta c s :
  handleTextDelta delta (set_console c s) = set_console c (handleTextDelta delta s).
Proof.
  unfold handleTextDelta. cbn [currentTextId set_console].
  destruct (held (currentTextId s)); reflexivity.
Qed.

Lemma handleToolEvent_console callId st updates c s :
  handleToolEvent callId st updates (set_console c s)
  = set_console c (handleToolEvent callId st updates s).
Proof.
  unfold handleToolEvent. cbn [toolMessageMap set_console].
  destruct (held (toolMessageMap s !! callId)); reflexivity.
Qed.

Lemma dispatchEvent_console event c s :
  dispatchEvent event (set_console c s)
  = (set_console c (dispatchEvent event s).1, (dispatchEvent event s).2).
Proof.
  destruct event; try reflexivity.
  all: unfold dispatchEvent; cbn [activeScreenshotToolId has_onError set_console];
    repeat case_match; cbn [fst snd];
    rewrite ?handleTextDelta_console, ?handleToolEvent_console; reflexivity.
Qed.

Lemma processLine_console rawLine c s :
  ∃ c', processLine rawLine (set_console c s)
        = (set_console c' (processLine rawLine s).1, (processLine rawLine s).2).
Proof.
  unfold processLine, parseLine. destruct (negb (nonempty (trim rawLine))).
  { by exists c. }
  destruct (JSON_parse (trim rawLine)) as [event |].
  - exists c. apply dispatchEvent_console.
  - by exists (ParseErrorLogged :: c).
Qed.

Lemma restore_console s : set_console (console s) (quiet s) = s.
Proof. by destruct s. Qed.

Lemma quiet_set_console c s : quiet (set_console c s) = quiet s.
Proof. reflexivity. Qed.

Lemma processLine_quiet rawLine s1 s2 :
  quiet s1 = quiet s2 ->
  quiet (processLine rawLine s1).1 = quiet (processLine rawLine s2).1
  ∧ (processLine rawLine s1).2 = (processLine rawLine s2).2.
Proof.
  intros Hq.
  destruct (processLine_console rawLine (console s1) (quiet s1)) as [c1 H1].
  destruct (processLine_console rawLine (console s2) (quiet s2)) as [c2 H2].
  rewrite restore_console in H1, H2. rewrite H1, H2, Hq. by cbn.
Qed.

Lemma processLines_quiet ls s1 s2 :
  quiet s1 = quiet s2 ->
  quiet (processLines ls s1).1 = quiet (processLines ls s2).1
  ∧ (processLines ls s1).2 = (processLines ls s2).2.
Proof.
  unfold processLines. revert s1 s2.
  induction ls as [| l ls IH]; intros s1 s2 Hq; [done |].
  cbn [run_lines].
  destruct (processLine_quiet l s1 s2 Hq) as [Hq' Hc].
  destruct (processLine l s1) as [s1' c1], (processLine l s2) as [s2' c2].
  cbn in Hq', Hc. subst c2. destruct c1; [by apply IH | done | done].
Qed.

Lemma run_lines_app {St : Type} (onLine : jsstring -> St -> St * Completion)
    ls1 ls2 st :
  run_lines onLine (ls1 ++ ls2) st =
    match run_lines onLine ls1 st with
    | (st', Normal) => run_lines onLine ls2 st'
    | r => r
    end.
Proof.
  revert st. induction ls1 as [| l ls1 IH]; intros st; [done |].
  cbn [run_lines app]. destruct (onLine l st) as [st' []]; [apply IH | done | done].
Qed.

(** C7: a line that does not parse as JSON is discarded: processing it
    returns normally, having written to the console and called nobody, and a
    sequence of lines with such a line in it ends as the sequence without it
    does, with the same snapshot (so the same transcript), the same calls to
    the listeners and to the error callback, and the same completion. *)
Theorem malformed_line_discarded before malformed after s :
  trim malformed ≠ [] -> JSON_parse (trim malformed) = None ->
  processLine malformed s = (log ParseErrorLogged s, Normal)
  ∧ snapshot (processLines (before ++ malformed :: after) s).1
    = snapshot (processLines (before ++ after) s).1
  ∧ calls (processLines (before ++ malformed :: after) s).1
    = calls (processLines (before ++ after) s).1
  ∧ quiet (processLines (before ++ malformed :: after) s).1
    = quiet (processLines (before ++ after) s).1
  ∧ (processLines (before ++ malformed :: after) s).2
    = (processLines (before ++ after) s).2.
Proof.
  intros Hline Hparse.
  pose proof (processLine_malformed malformed s Hline Hparse) as Hstep.
  split; [exact Hstep |].
  assert (quiet (processLines (before ++ malformed :: after) s).1
          = quiet (processLines (before ++ after) s).1
          ∧ (processLines (before ++ malformed :: after) s).2
            = (processLines (before ++ after) s).2) as [Hq Hc].
  { unfold processLines. rewrite !run_lines_app.
    destruct (run_lines processLine before s) as [s1 []]; [| done | done].
    cbn [run_lines].
    rewrite (processLine_malformed malformed s1 Hline Hparse).
    apply processLines_quiet. reflexivity. }
  repeat split; [| | exact Hq | exact Hc].
  - by apply (f_equal snapshot) in Hq.
  - by apply (f_equal calls) in Hq.
Qed.

(** ** Framing *)

Lemma indexOf_lt c buffer i : indexOf c buffer = Some i -> i < length buffer.
Proof.
  revert i. induction buffer as [| x buffer IH]; intros i; cbn; [done |].
  destruct (N.eqb x c).
  - intros [= <-]. lia.
  - destruct (indexOf c buffer) as [j |]; [| done].
    intros [= <-]. specialize (IH j eq_refl). lia.
Qed.

Lemma split_lines_no_newline buffer :
  indexOf newline buffer = None -> split_lines buffer = ([], buffer).
Proof.
  induction buffer as [| x buffer IH]; cbn; [done |].
  destruct (N.eqb x newline); [done |].
  destruct (indexOf newline buffer); [done |].
  intros _. by rewrite IH.
Qed.

Lemma split_lines_newline buffer i :
  indexOf newline buffer = Some i ->
  split_lines buffer =
    (take i buffer :: (split_lines (drop (S i) buffer)).1,
     (split_lines (drop (S i) buffer)).2).
Proof.
  revert i. induction buffer as [| x buffer IH]; intros i; cbn; [done |].
  destruct (N.eqb x newline).
  - intros [= <-]. cbn. rewrite drop_0. by destruct (split_lines buffer).
  - destruct (indexOf newline buffer) as [j |]; [| done].
    intros [= <-]. rewrite (IH j eq_refl). reflexivity.
Qed.

Lemma remainder_no_newline text :
  indexOf newline (split_lines text).2 = None.
Proof.
  induction text as [| x text IH]; cbn; [done |].
  destruct (split_lines text) as [ls remainder]. cbn in IH.
  destruct (N.eqb x newline) eqn:Hx; [done |].
  destruct ls; cbn; [by rewrite Hx, IH | done].
Qed.

Lemma split_lines_app x y :
  split_lines (x ++ y) =
    ((split_lines x).1 ++ (split_lines ((split_lines x).2 ++ y)).1,
     (split_lines ((split_lines x).2 ++ y)).2).
Proof.
  induction x as [| c x IH]; cbn.
  { by destruct (split_lines y). }
  rewrite IH. destruct (split_lines x) as [lx rx]. cbn.
  destruct (N.eqb c newline) eqn:Hc; [done |].
  destruct lx as [| l lx]; cbn; [| done].
  rewrite Hc. by destruct (split_lines (rx ++ y)) as [[| l ly] ry].
Qed.

Lemma decode_app d x y :
  decode d (x ++ y) =
    ((decode (decode d x).1 y).1, (decode d x).2 ++ (decode (decode d x).1 y).2).
Proof.
  revert d. induction x as [| b x IH]; intros d; cbn.
  { by destruct (decode d y). }
  destruct (decoder_step d b) as [d1 out]. rewrite IH.
  destruct (decode d1 x) as [d2 out']. cbn. by rewrite app_assoc.
Qed.

Section FramerProperties.
Context {St : Type} (onLine : jsstring -> St -> St * Completion).

(** The fuel given to the inner loop is enough: with any fuel above the
    length of the buffer, the loop runs the lines of the buffer in order and
    leaves its remainder. *)
Lemma drainLines_fuel_lines fuel buffer st :
  length buffer < fuel ->
  ((drainLines_fuel onLine fuel buffer st).1.2, (drainLines_fuel onLine fuel buffer st).2)
  = run_lines onLine (split_lines buffer).1 st
  ∧ ((drainLines_fuel onLine fuel buffer st).2 = Normal ->
     (drainLines_fuel onLine fuel buffer st).1.1 = (split_lines buffer).2).
Proof.
  revert buffer st. induction fuel as [| fuel IH]; intros buffer st Hfuel; [lia |].
  cbn [drainLines_fuel].
  destruct (indexOf newline buffer) as [i |] eqn:Hi.
  - rewrite (split_lines_newline _ _ Hi). cbn [fst snd run_lines].
    assert (length (drop (S i) buffer) < fuel) as Hless.
    { apply indexOf_lt in Hi. rewrite length_drop. lia. }
    destruct (onLine (take i buffer) st) as [st' []]; [| done | done].
    apply IH, Hless.
  - by rewrite (split_lines_no_newline _ Hi).
Qed.

(** The equation of the inner [while] loop. *)
Lemma drainLines_unfold buffer st :
  drainLines onLine buffer st =
    match indexOf newline buffer with
    | None => (buffer, st, Normal)
    | Some newlineIndex =>
        match onLine (take newlineIndex buffer) st with
        | (st', Normal) => drainLines onLine (drop (S newlineIndex) buffer) st'
        | (st', c) => (drop (S newlineIndex) buffer, st', c)
        end
    end.
Proof.
  unfold drainLines at 1. cbn [drainLines_fuel].
  destruct (indexOf newline buffer) as [i |] eqn:Hi; [| done].
  destruct (onLine (take i buffer) st) as [st' []]; [| done | done].
  unfold drainLines.
  assert (∀ fuel1 fuel2 b s,
            length b < fuel1 -> length b < fuel2 ->
            drainLines_fuel onLine fuel1 b s = drainLines_fuel onLine fuel2 b s)
    as Hany.
  { induction fuel1 as [| fuel1 IH]; intros fuel2 b s H1 H2; [lia |].
    destruct fuel2 as [| fuel2]; [lia |]. cbn [drainLines_fuel].
    destruct (indexOf newline b) as [j |] eqn:Hj; [| done].
    destruct (onLine (take j b) s) as [s' []]; [| done | done].
    apply indexOf_lt in Hj. apply IH; rewrite length_drop; lia. }
  apply indexOf_lt in Hi. apply Hany; rewrite length_drop; lia.
Qed.

Lemma drainLines_lines buffer st :
  ((drainLines onLine buffer st).1.2, (drainLines onLine buffer st).2)
  = run_lines onLine (split_lines buffer).1 st
  ∧ ((drainLines onLine buffer st).2 = Normal ->
     (drainLines onLine buffer st).1.1 = (split_lines buffer).2).
Proof. apply drainLines_fuel_lines. lia. Qed.

(** Reading a body chunk by chunk to its end is framing the whole decoded
    text at once. *)
Lemma readLoop_chunks chunks buffer d st :
  indexOf newline buffer = None ->
  readLoop onLine (map ReadChunk chunks ++ [ReadDone]) buffer d st
  = run_text onLine (buffer ++ (decode d (concat chunks)).2) st.
Proof.
  revert buffer d st.
  induction chunks as [| chunk chunks IH]; intros buffer d st Hbuffer.
  - cbn [map app concat readLoop decode snd]. rewrite app_nil_r. unfold run_text.
    rewrite (split_lines_no_newline _ Hbuffer). cbn [fst snd run_lines].
    destruct (nonempty (trim buffer)); [| done].
    by destruct (onLine buffer st) as [st' []].
  - cbn [map app concat readLoop]. rewrite decode_app.
    destruct (decode d chunk) as [d' text]. cbn [fst snd].
    destruct (drainLines_lines (buffer ++ text) st) as [Hrun Hrest].
    destruct (drainLines onLine (buffer ++ text) st) as [[buffer' st'] c].
    cbn [fst snd] in Hrun, Hrest.
    unfold run_text at 1. rewrite app_assoc, split_lines_app. cbn [fst snd].
    rewrite run_lines_app, <- Hrun.
    destruct c; [| done | done].
    rewrite IH.
    + unfold run_text. by rewrite Hrest.
    + rewrite Hrest by done. apply remainder_no_newline.
Qed.

(** While the body has not ended, what has been handed over is the lines
    that the text decoded so far has complete. *)
Lemma readLoop_pending chunks buffer d st :
  indexOf newline buffer = None ->
  readLoop onLine (map ReadChunk chunks) buffer d st
  = match run_lines onLine
            (split_lines (buffer ++ (decode d (concat chunks)).2)).1 st with
    | (st', Normal) => (st', Suspended)
    | (st', c) => (st', loop_result c)
    end.
Proof.
  revert buffer d st.
  induction chunks as [| chunk chunks IH]; intros buffer d st Hbuffer.
  - cbn [map concat readLoop decode snd]. rewrite app_nil_r.
    by rewrite (split_lines_no_newline _ Hbuffer).
  - cbn [map concat readLoop]. rewrite decode_app.
    destruct (decode d chunk) as [d' text]. cbn [fst snd].
    destruct (drainLines_lines (buffer ++ text) st) as [Hrun Hrest].
    destruct (drainLines onLine (buffer ++ text) st) as [[buffer' st'] c].
    cbn [fst snd] in Hrun, Hrest.
    rewrite app_assoc, split_lines_app. cbn [fst snd].
    rewrite run_lines_app, <- Hrun.
    destruct c; [| done | done].
    rewrite IH.
    + by rewrite Hrest.
    + rewrite Hrest by done. apply remainder_no_newline.
Qed.

End FramerProperties.

Lemma processLine_trimmed rawLine s :
  processLine rawLine s =
    if blank rawLine then (s, Normal) else parseLine (trim rawLine) s.
Proof. reflexivity. Qed.

Lemma run_lines_processLine ls s :
  run_lines processLine ls s
  = run_lines (λ e, parseLine (trim e)) (filter (λ l, blank l = false) ls) s.
Proof.
  revert s. induction ls as [| l ls IH]; intros s; [done |].
  cbn [run_lines]. rewrite processLine_trimmed.
  destruct (blank l) eqn:Hl.
  - rewrite filter_cons_False by (by rewrite Hl). apply IH.
  - rewrite filter_cons_True by done. cbn [run_lines].
    destruct (parseLine (trim l) s) as [s' []]; [apply IH | done | done].
Qed.

Lemma run_lines_record ls seen :
  run_lines record_line ls seen
  = (seen ++ (trim <$> filter (λ l, blank l = false) ls), Normal).
Proof.
  revert seen. induction ls as [| l ls IH]; intros seen.
  { cbn. by rewrite app_nil_r. }
  cbn [run_lines]. unfold record_line at 1. fold (blank l).
  destruct (blank l) eqn:Hl.
  - rewrite filter_cons_False by (by rewrite Hl). apply IH.
  - rewrite filter_cons_True by done. rewrite IH, fmap_cons.
    by rewrite <- app_assoc.
Qed.

Lemma stream_events_split text :
  stream_events text
  = filter (λ l, blank l = false) (split_lines text).1
    ++ (if blank (split_lines text).2 then [] else [(split_lines text).2]).
Proof.
  unfold stream_events. destruct (split_lines text) as [ls remainder].
  cbn [fst snd]. rewrite filter_app. f_equal.
  destruct remainder as [| c remainder]; [done |]. cbn [nonempty].
  destruct (blank (c :: remainder)) eqn:Hb.
  - rewrite filter_cons_False by (by rewrite Hb). done.
  - rewrite filter_cons_True by done. done.
Qed.

(** C1: however the bytes of a response body are cut into chunks, reading
    the body to its end hands to the dispatcher exactly the events of the
    whole decoded text, once each and in order: the lines ended by a newline
    and then the remainder, if any, those that are blank once trimmed left
    out.  The right-hand sides do not see the chunks, so two ways of cutting
    the same bytes do the same.  The first part is about the session, where
    the reading stops at an event that makes the dispatcher throw; the second
    puts a recorder in the place of the dispatcher and shows the events
    themselves; the third shows that, before the body ends, the events handed
    over are those of the lines that the text decoded so far has complete. *)
Theorem framing_independent_of_chunking chunks s :
  readLoop processLine (map ReadChunk chunks ++ [ReadDone]) [] decoder_init s
  = dispatch_events (stream_events (decoded (concat chunks))) s
  ∧ readLoop record_line (map ReadChunk chunks ++ [ReadDone]) [] decoder_init []
    = (trim <$> stream_events (decoded (concat chunks)), Finished)
  ∧ readLoop record_line (map ReadChunk chunks) [] decoder_init []
    = (trim <$> filter (λ l, blank l = false)
                  (split_lines (decoded (concat chunks))).1,
       Suspended).
Proof.
  rewrite !readLoop_chunks, readLoop_pending by done. cbn [app].
  rewrite stream_events_split. unfold run_text, dispatch_events, decoded.
  destruct (split_lines (decode decoder_init (concat chunks)).2) as [ls remainder].
  cbn [fst snd]. split; [| split].
  - rewrite run_lines_app, run_lines_processLine.
    destruct (run_lines _ (filter _ ls) s) as [s' []]; [| done | done].
    rewrite processLine_trimmed. unfold blank at 2.
    destruct (nonempty (trim remainder)) eqn:Hr; cbn [negb].
    + unfold blank. rewrite Hr. cbn [negb run_lines].
      by destruct (parseLine (trim remainder) s') as [s'' []].
    + unfold blank. by rewrite Hr.
  - rewrite run_lines_record. cbn [app]. unfold record_line, blank.
    destruct (nonempty (trim remainder)); cbn [negb fst snd loop_result].
    + by rewrite fmap_app.
    + by rewrite app_nil_r.
  - by rewrite run_lines_record.
Qed.

(** ** The transcript and the map of tool calls *)

Lemma elem_of_invocations inv msgs :
  inv ∈ invocations msgs ↔ ∃ m, inv ∈ tool_parts m ∧ m ∈ msgs.
Proof. apply list_elem_of_bind. Qed.

Lemma invocations_app msgs1 msgs2 :
  invocations (msgs1 ++ msgs2) = invocations msgs1 ++ invocations msgs2.
Proof. apply bind_app. Qed.

Lemma invocations_cons m msgs :
  invocations (m :: msgs) = tool_parts m ++ invocations msgs.
Proof. reflexivity. Qed.

Lemma invocations_of_cons c m msgs :
  invocations_of c (m :: msgs)
  = filter (λ inv, toolCallId inv = c) (tool_parts m) ++ invocations_of c msgs.
Proof. unfold invocations_of. by rewrite invocations_cons, filter_app. Qed.

Lemma invocations_of_singleton c m :
  invocations_of c [m] = filter (λ inv, toolCallId inv = c) (tool_parts m).
Proof. rewrite invocations_of_cons. apply app_nil_r. Qed.

Lemma tool_parts_sole i r ct inv :
  tool_parts {| id := i; role := r; content := ct;
                parts := Some [ToolInvocationPart inv] |} = [inv].
Proof. reflexivity. Qed.

Lemma invocations_of_app c msgs1 msgs2 :
  invocations_of c (msgs1 ++ msgs2) = invocations_of c msgs1 ++ invocations_of c msgs2.
Proof. unfold invocations_of. by rewrite invocations_app, filter_app. Qed.

Lemma invocations_of_nil c msgs :
  invocations_of c msgs = [] ↔
  ∀ m inv, m ∈ msgs -> inv ∈ tool_parts m -> toolCallId inv ≠ c.
Proof.
  unfold invocations_of. split.
  - intros Hnone m inv Hm Hinv Hc.
    assert (inv ∈ filter (λ inv, toolCallId inv = c) (invocations msgs)) as Hin.
    { apply list_elem_of_filter. split; [done |].
      apply elem_of_invocations. eauto. }
    rewrite Hnone in Hin. by apply not_elem_of_nil in Hin.
  - intros Hnone.
    destruct (filter _ (invocations msgs)) as [| inv rest] eqn:Hf; [done |].
    assert (inv ∈ filter (λ inv, toolCallId inv = c) (invocations msgs)) as Hin.
    { rewrite Hf. left. }
    apply list_elem_of_filter in Hin as [Hc Hin].
    apply elem_of_invocations in Hin as (m & Hinv & Hm).
    by destruct (Hnone m inv Hm Hinv).
Qed.

Lemma carries_false c m :
  carries c m = false ↔ filter (λ inv, toolCallId inv = c) (tool_parts m) = [].
Proof.
  unfold carries. induction (tool_parts m) as [| inv l IH]; [done |].
  cbn [existsb]. rewrite filter_cons. case_bool_decide.
  - by rewrite decide_True.
  - by rewrite decide_False.
Qed.

(** One invocation of a call in the transcript means one message carrying
    it. *)
Lemma one_invocation_one_message c msgs :
  length (invocations_of c msgs) = 1 ->
  length (filter (λ m, carries c m = true) msgs) = 1.
Proof.
  assert (∀ l, invocations_of c l = [] -> filter (λ m, carries c m = true) l = [])
    as Hnone.
  { induction l as [| m l IH]; [done |].
    rewrite invocations_of_cons. intros [Hm Hl]%app_eq_nil.
    rewrite filter_cons_False; [by apply IH |].
    apply carries_false in Hm. by rewrite Hm. }
  induction msgs as [| m msgs IH]; [done |].
  rewrite invocations_of_cons, length_app.
  destruct (carries c m) eqn:Hm.
  - rewrite filter_cons_True by done. cbn [length]. intros Hlen.
    destruct (filter _ (tool_parts m)) as [| inv l] eqn:Hf.
    { apply carries_false in Hf. congruence. }
    cbn [length] in Hlen.
    rewrite Hnone; [done |]. apply length_zero_iff_nil. lia.
  - rewrite filter_cons_False by (by rewrite Hm).
    apply carries_false in Hm. rewrite Hm. apply IH.
Qed.

Lemma tool_parts_update_message messageId c st u m :
  tool_parts (update_message messageId c st u m)
  = if bool_decide (id m ≠ messageId) then tool_parts m
    else update_invocation c st u <$> tool_parts m.
Proof.
  unfold update_message. case_bool_decide; [done |].
  destruct (parts m) as [ps |] eqn:Hps; unfold tool_parts; cbn [parts];
    rewrite Hps; [| done].
  clear Hps. induction ps as [| p ps IH]; [done |].
  cbn [map omap list_omap]. rewrite IH. clear IH.
  destruct p as [inv | ty]; [| done].
  cbn [update_part fmap list_fmap]. unfold update_invocation.
  by case_bool_decide.
Qed.

Lemma id_update_message messageId c st u m :
  id (update_message messageId c st u m) = id m.
Proof.
  unfold update_message. case_bool_decide; [done |]. by destruct (parts m).
Qed.

Lemma toolCallId_update_invocation c st u inv :
  toolCallId (update_invocation c st u inv) = toolCallId inv.
Proof. unfold update_invocation. by case_bool_decide. Qed.

Lemma filter_update_invocation c c' st u (l : list ToolInvocation) :
  filter (λ inv, toolCallId inv = c') (update_invocation c st u <$> l)
  = update_invocation c st u <$> filter (λ inv, toolCallId inv = c') l.
Proof.
  induction l as [| inv l IH]; [done |].
  cbn [fmap list_fmap]. rewrite !filter_cons, toolCallId_update_invocation.
  case_decide; cbn [fmap list_fmap]; by rewrite IH.
Qed.

(** Updating leaves the invocations of every other call alone, and keeps
    those of the call as many. *)
Lemma invocations_of_update_length messageId c c' st u msgs :
  length (invocations_of c' (map (update_message messageId c st u) msgs))
  = length (invocations_of c' msgs).
Proof.
  induction msgs as [| m msgs IH]; [done |].
  cbn [map]. rewrite !invocations_of_cons, !length_app, IH. f_equal.
  rewrite tool_parts_update_message. case_bool_decide; [done |].
  by rewrite filter_update_invocation, length_fmap.
Qed.

(** When every message carrying the call has the id the call is mapped to,
    updating merges the updates into each invocation of the call. *)
Lemma invocations_of_update messageId c st u msgs :
  (∀ m inv, m ∈ msgs -> inv ∈ tool_parts m -> toolCallId inv = c ->
            id m = messageId) ->
  invocations_of c (map (update_message messageId c st u) msgs)
  = (λ inv, merge_invocation inv u st) <$> invocations_of c msgs.
Proof.
  induction msgs as [| m msgs IH]; intros Howner; [done |].
  cbn [map]. rewrite !invocations_of_cons, fmap_app, IH.
  2: { intros m' inv Hm'. apply Howner. by right. }
  f_equal. rewrite tool_parts_update_message. case_bool_decide as Hid.
  - assert (filter (λ inv, toolCallId inv = c) (tool_parts m) = []) as ->; [| done].
    destruct (filter _ (tool_parts m)) as [| inv l] eqn:Hf; [done |].
    assert (inv ∈ filter (λ inv, toolCallId inv = c) (tool_parts m)) as Hin.
    { rewrite Hf. left. }
    apply list_elem_of_filter in Hin as [Hc Hin].
    destruct Hid. apply (Howner m inv); [left | done | done].
  - rewrite filter_update_invocation.
    apply list_fmap_ext. intros i inv Hinv%list_elem_of_lookup_2.
    apply list_elem_of_filter in Hinv as [Hc _].
    unfold update_invocation. by rewrite bool_decide_false by tauto.
Qed.

Lemma consistent_frame s s' :
  messages (snapshot s') = messages (snapshot s) ->
  toolMessageMap s' = toolMessageMap s ->
  consistent s -> consistent s'.
Proof.
  intros Hm Ht [Howner Honce Hstate].
  split; rewrite ?Hm, ?Ht; assumption.
Qed.

Lemma consistent_append s s' m :
  messages (snapshot s') = messages (snapshot s) ++ [m] ->
  tool_parts m = [] ->
  toolMessageMap s' = toolMessageMap s ->
  consistent s -> consistent s'.
Proof.
  intros Hm Hparts Ht [Howner Honce Hstate]. split; rewrite ?Hm, ?Ht.
  - intros m' inv [Hm' | Hm']%elem_of_app Hinv; [by apply Howner |].
    apply list_elem_of_singleton in Hm' as ->. rewrite Hparts in Hinv.
    by apply not_elem_of_nil in Hinv.
  - intros c mid Hc. rewrite invocations_of_app.
    unfold invocations_of at 2. rewrite invocations_cons, Hparts. cbn.
    rewrite app_nil_r. by apply Honce.
  - intros inv. rewrite invocations_app, invocations_cons, Hparts. cbn.
    rewrite app_nil_r. apply Hstate.
Qed.

Lemma handleTextDelta_consistent delta s :
  consistent s -> consistent (handleTextDelta delta s).
Proof.
  intros Hs. unfold handleTextDelta.
  destruct (held (currentTextId s)) as [current |].
  - destruct Hs as [Howner Honce Hstate].
    set (keep := λ message : Message,
           if bool_decide (id message ≠ current) then message
           else append_content delta message).
    assert (∀ m, id (keep m) = id m ∧ tool_parts (keep m) = tool_parts m) as Hkeep.
    { intros m. unfold keep. by case_bool_decide. }
    assert (∀ msgs, invocations (map keep msgs) = invocations msgs) as Hinv.
    { induction msgs as [| m msgs IH]; [done |].
      cbn [map]. rewrite !invocations_cons, IH. f_equal. apply Hkeep. }
    split; rewrite messages_replaceMessages, ?toolMessageMap_replaceMessages.
    + intros m' inv Hm'%list_elem_of_In Hinv'.
      apply in_map_iff in Hm' as (m & <- & Hm%list_elem_of_In).
      destruct (Hkeep m) as [-> Hparts]. rewrite Hparts in Hinv'.
      by apply Howner.
    + intros c mid Hc. unfold invocations_of. rewrite Hinv. by apply Honce.
    + intros inv. rewrite Hinv. apply Hstate.
  - eapply consistent_append; [| | | exact Hs]; reflexivity.
Qed.


Lemma handleToolEvent_first c st u s :
  toolMessageMap s !! c = None ->
  handleToolEvent c st u s =
    let messageId := str "tool-" ++ c ++ str "-" ++ Date_now (ticks s) in
    replaceMessages
      (messages (snapshot s)
       ++ [{| id := messageId; role := assistant; content := Some [];
              parts := Some [ToolInvocationPart (new_invocation c st u)] |}])
      (set_currentTextId None
         (set_toolMessageMap (<[c := messageId]> (toolMessageMap s))
            (set_ticks (S (ticks s)) s))).
Proof. unfold handleToolEvent. intros ->. reflexivity. Qed.

Lemma handleToolEvent_again c st u mid s :
  toolMessageMap s !! c = Some mid -> mid ≠ [] ->
  handleToolEvent c st u s =
    replaceMessages (map (update_message mid c st u) (messages (snapshot s))) s.
Proof.
  unfold handleToolEvent. intros -> Hmid.
  destruct mid; [done | reflexivity].
Qed.

Lemma handleToolEvent_consistent c st u s :
  st ≠ tool_streaming ->
  consistent s -> consistent (handleToolEvent c st u s).
Proof.
  intros Hst Hs. destruct (toolMessageMap s !! c) as [mid |] eqn:Hc.
  - destruct Hs as [Howner Honce Hstate].
    destruct (Honce c mid Hc) as [Hmid _].
    rewrite (handleToolEvent_again _ _ _ _ _ Hc Hmid).
    split; rewrite messages_replaceMessages, ?toolMessageMap_replaceMessages.
    + intros m' inv' Hm'%list_elem_of_In Hinv'.
      apply in_map_iff in Hm' as (m & <- & Hm%list_elem_of_In).
      rewrite id_update_message. rewrite tool_parts_update_message in Hinv'.
      case_bool_decide; [by apply Howner |].
      apply list_elem_of_fmap in Hinv' as (inv & -> & Hinv).
      rewrite toolCallId_update_invocation. by apply Howner.
    + intros c' mid' Hc'. rewrite invocations_of_update_length. by apply Honce.
    + intros inv' (m' & Hinv' & Hm'%list_elem_of_In)%elem_of_invocations.
      apply in_map_iff in Hm' as (m & <- & Hm%list_elem_of_In).
      rewrite tool_parts_update_message in Hinv'.
      assert (∀ inv, inv ∈ tool_parts m -> state inv ≠ tool_streaming) as Hm_state.
      { intros inv Hinv. apply Hstate, elem_of_invocations. eauto. }
      case_bool_decide; [by apply Hm_state |].
      apply list_elem_of_fmap in Hinv' as (inv & -> & Hinv).
      unfold update_invocation. case_bool_decide; [by apply Hm_state | done].
  - rewrite (handleToolEvent_first _ _ _ _ Hc). cbv zeta.
    destruct Hs as [Howner Honce Hstate].
    assert (invocations_of c (messages (snapshot s)) = []) as Hnone.
    { apply invocations_of_nil. intros m inv Hm Hinv Heq.
      specialize (Howner m inv Hm Hinv). rewrite Heq in Howner. congruence. }
    split; rewrite messages_replaceMessages, ?toolMessageMap_replaceMessages;
      cbn [toolMessageMap set_currentTextId set_toolMessageMap set_ticks].
    + intros m inv [Hm | Hm]%elem_of_app Hinv.
      * specialize (Howner m inv Hm Hinv).
        rewrite lookup_insert_ne; [done |]. intros ->. congruence.
      * apply list_elem_of_singleton in Hm as ->.
        apply list_elem_of_singleton in Hinv as ->.
        cbn. by rewrite lookup_insert_eq.
    + intros c' mid'. rewrite invocations_of_app.
      destruct (decide (c = c')) as [<- | Hne].
      * rewrite lookup_insert_eq. intros [= <-]. rewrite Hnone. split.
        -- by intros [=].
        -- rewrite invocations_of_singleton.
           rewrite tool_parts_sole.
           by rewrite filter_cons_True.
      * rewrite lookup_insert_ne by done. intros Hc'.
        destruct (Honce c' mid' Hc') as [Hmid' Hlen]. split; [done |].
        rewrite length_app, Hlen, invocations_of_singleton.
        rewrite tool_parts_sole.
        by rewrite filter_cons_False.
    + intros inv. rewrite invocations_app.
      intros [Hinv | Hinv]%elem_of_app; [by apply Hstate |].
      change (invocations [_]) with ([new_invocation c st u] ++ []) in Hinv.
      rewrite app_nil_r in Hinv.
      by apply list_elem_of_singleton in Hinv as ->.
Qed.

Lemma dispatchEvent_consistent event s :
  consistent s -> consistent (dispatchEvent event s).1.
Proof.
  intros Hs. destruct event; try exact Hs.
  unfold dispatchEvent. repeat case_match; cbn [fst]; try exact Hs.
  all: try (apply handleTextDelta_consistent; exact Hs).
  all: try (eapply consistent_frame;
            [| | apply handleToolEvent_consistent; [| exact Hs]];
            [reflexivity | reflexivity | done]).
  all: try (apply handleToolEvent_consistent; [done | exact Hs]).
  all: eapply consistent_frame; [| | exact Hs]; reflexivity.
Qed.

Lemma processLine_consistent rawLine s :
  consistent s -> consistent (processLine rawLine s).1.
Proof.
  intros Hs. unfold processLine, parseLine.
  destruct (negb (nonempty (trim rawLine))); [exact Hs |].
  destruct (JSON_parse (trim rawLine)); [by apply dispatchEvent_consistent |].
  eapply consistent_frame; [| | exact Hs]; reflexivity.
Qed.

Lemma reachable_consistent s : reachable s -> consistent s.
Proof.
  induction 1 as [onError | l s _ IH | l s _ IH | v s _ IH | b s _ IH | u b s _ IH
                 | text options s _ IH Hgo | s _ IH | rawLine s _ IH | s _ IH
                 | e s _ IH | s _ IH].
  - split; cbn; [intros m inv Hm | intros c mid Hc | intros inv Hinv].
    + by apply not_elem_of_nil in Hm.
    + by rewrite lookup_empty in Hc.
    + by apply not_elem_of_nil in Hinv.
  - unfold subscribe. case_bool_decide; [done |].
    eapply consistent_frame; [| | exact IH]; reflexivity.
  - eapply consistent_frame; [| | exact IH]; reflexivity.
  - eapply consistent_frame; [| | exact IH]; reflexivity.
  - eapply consistent_frame; [| | exact IH]; reflexivity.
  - eapply consistent_frame; [| | exact IH]; reflexivity.
  - eapply consistent_append; [| | | exact IH].
    + unfold sendMessage_prologue. cbn. destruct (abortController s); reflexivity.
    + reflexivity.
    + unfold sendMessage_prologue. cbn. destruct (abortController s); reflexivity.
  - eapply consistent_frame; [| | exact IH]; reflexivity.
  - by apply processLine_consistent.
  - eapply consistent_frame; [| | exact IH]; reflexivity.
  - eapply consistent_frame; [| | exact IH].
    + apply catch_ready.
    + unfold sendMessage_catch.
      destruct e; [case_bool_decide |]; cbn; try reflexivity;
        destruct (has_onError s); reflexivity.
  - eapply consistent_frame; [| | exact IH].
    + apply stop_ready.
    + unfold stop. destruct (abortController s); reflexivity.
Qed.

(** ** The life of a tool invocation *)

Lemma is_string_true v lit : is_string v lit = true -> v = Some (JStr lit).
Proof.
  destruct v as [[] |]; try done. cbn. by intros ->%bool_decide_eq_true.
Qed.

Lemma after_marking (b : bool) c s :
  messages (snapshot (if b then set_activeScreenshotToolId (Some c) s else s))
  = messages (snapshot s)
  ∧ toolMessageMap (if b then set_activeScreenshotToolId (Some c) s else s)
    = toolMessageMap s.
Proof. by destruct b. Qed.

(** After [handleToolEvent] the transcript holds one invocation of the call,
    in the state asked for, with the fields of the updates; the other fields
    are those the invocation had, if there was one. *)
Lemma handleToolEvent_invocation c st u s :
  consistent s ->
  ∃ inv,
    invocations_of c (messages (snapshot (handleToolEvent c st u s))) = [inv]
    ∧ state inv = st
    ∧ (∀ v, u_toolName u = Some v -> toolName inv = v)
    ∧ (∀ v, u_args u = Some v -> args inv = v)
    ∧ (∀ v, u_result u = Some v -> toolResult inv = v)
    ∧ (∀ old, invocations_of c (messages (snapshot s)) = [old] ->
              inv = merge_invocation old u st)
    ∧ (toolMessageMap s !! c = None ->
       ∃ m, messages (snapshot (handleToolEvent c st u s))
            = messages (snapshot s) ++ [m]
            ∧ tool_parts m = [inv]).
Proof.
  intros [Howner Honce Hstate].
  destruct (toolMessageMap s !! c) as [mid |] eqn:Hc.
  - destruct (Honce c mid Hc) as [Hmid Hlen].
    destruct (invocations_of c (messages (snapshot s))) as [| old [| ? ?]] eqn:Hold;
      try done.
    exists (merge_invocation old u st).
    rewrite (handleToolEvent_again _ _ _ _ _ Hc Hmid), messages_replaceMessages.
    rewrite invocations_of_update, Hold.
    2: { intros m inv Hm Hinv Heq. specialize (Howner m inv Hm Hinv).
         rewrite Heq in Howner. congruence. }
    repeat split; try done.
    + intros v Hv. cbn. by rewrite Hv.
    + intros v Hv. cbn. by rewrite Hv.
    + intros v Hv. cbn. by rewrite Hv.
    + by intros ? [= <-].
  - exists (new_invocation c st u).
    rewrite (handleToolEvent_first _ _ _ _ Hc). cbv zeta.
    rewrite messages_replaceMessages.
    assert (invocations_of c (messages (snapshot s)) = []) as Hnone.
    { apply invocations_of_nil. intros m inv Hm Hinv Heq.
      specialize (Howner m inv Hm Hinv). rewrite Heq in Howner. congruence. }
    rewrite invocations_of_app, Hnone, invocations_of_singleton.
    rewrite tool_parts_sole.
    rewrite filter_cons_True by done.
    repeat split; try done.
    + intros v Hv. cbn. by rewrite Hv.
    + intros v Hv. cbn. by rewrite Hv.
    + intros v Hv. cbn. by rewrite Hv.
    + intros _. by eexists.
Qed.

Lemma tool_event_state_type event st :
  tool_event_state event = Some st ->
  (st = call
   ∧ prop event (str "type") = Some (JStr (str "tool-input-available")))
  ∨ (st = result
     ∧ prop event (str "type") = Some (JStr (str "tool-output-available"))).
Proof.
  unfold tool_event_state.
  destruct (is_string _ (str "tool-input-available")) eqn:Hin.
  { intros [= <-]. left. split; [done |]. by apply is_string_true. }
  destruct (is_string _ (str "tool-output-available")) eqn:Hout; [| done].
  intros [= <-]. right. split; [done |]. by apply is_string_true.
Qed.

(** One tool event carrying a call id, in a consistent session. *)
Lemma tool_event_step rawLine event st c s :
  consistent s -> c ≠ [] ->
  trim rawLine ≠ [] -> JSON_parse (trim rawLine) = Some event ->
  tool_event_state event = Some st ->
  prop event (str "toolCallId") = Some (JStr c) ->
  ∃ s' inv,
    processLine rawLine s = (s', Normal)
    ∧ consistent s'
    ∧ invocations_of c (messages (snapshot s')) = [inv]
    ∧ state inv = st
    ∧ (st = call ->
       toolName inv = prop event (str "toolName")
       ∧ args inv = prop event (str "input"))
    ∧ (st = result -> toolResult inv = prop event (str "output"))
    ∧ (∀ old, invocations_of c (messages (snapshot s)) = [old] -> st = result ->
              toolName inv = toolName old ∧ args inv = args old)
    ∧ (toolMessageMap s !! c = None ->
       ∃ m, messages (snapshot s') = messages (snapshot s) ++ [m]
            ∧ tool_parts m = [inv]).
Proof.
  intros Hs Hc Hline Hparse Hst Hid.
  rewrite (processLine_parsed _ _ _ Hline Hparse).
  destruct (tool_event_state_type _ _ Hst) as [[-> Htype] | [-> Htype]].
  - rewrite (dispatch_tool_input _ _ _ Htype Hid Hc). cbv zeta.
    match goal with
    | |- context [handleToolEvent c call ?u s] =>
        destruct (handleToolEvent_invocation c call u s Hs)
          as (inv & Hinv & Hstate & Hname & Hargs & _ & _ & Hnew);
        pose proof (handleToolEvent_consistent c call u s ltac:(done) Hs) as Hs0;
        set (s0 := handleToolEvent c call u s) in *
    end.
    match goal with
    | |- context [if ?b then set_activeScreenshotToolId (Some c) s0 else s0] =>
        destruct (after_marking b c s0) as [Hm Ht];
        set (s' := if b then set_activeScreenshotToolId (Some c) s0 else s0) in *
    end.
    exists s', inv. rewrite Hm.
    split; [reflexivity |]. split; [by eapply consistent_frame |].
    split; [exact Hinv |]. split; [exact Hstate |].
    split. { intros _. split; [by apply Hname | by apply Hargs]. }
    split; [done |]. split; [done | exact Hnew].
  - rewrite (dispatch_tool_output _ _ _ Htype Hid Hc). cbv zeta.
    match goal with
    | |- context [handleToolEvent c result ?u s] =>
        destruct (handleToolEvent_invocation c result u s Hs)
          as (inv & Hinv & Hstate & _ & _ & Hresult & Hmerge & Hnew);
        pose proof (handleToolEvent_consistent c result u s ltac:(done) Hs) as Hs0;
        set (s0 := handleToolEvent c result u s) in *
    end.
    match goal with
    | |- context [if ?b then set_activeScreenshotToolId (Some c) s0 else s0] =>
        destruct (after_marking b c s0) as [Hm Ht];
        set (s' := if b then set_activeScreenshotToolId (Some c) s0 else s0) in *
    end.
    exists s', inv. rewrite Hm.
    split; [reflexivity |]. split; [by eapply consistent_frame |].
    split; [exact Hinv |]. split; [exact Hstate |].
    split; [done |]. split. { intros _. by apply Hresult. }
    split; [| exact Hnew].
    intros old Hold _. by rewrite (Hmerge old Hold).
Qed.

(** C2: in a session reached from a fresh controller, a tool-input-available
    line for a call followed by a tool-output-available line for the same
    call leaves the transcript with one invocation of that call, held by one
    message; it is in state [result], its result is the output of the second
    event, and its name and arguments are those of the first. *)
Theorem tool_call_then_result line1 line2 event1 event2 c s :
  reachable s -> c ≠ [] ->
  trim line1 ≠ [] -> JSON_parse (trim line1) = Some event1 ->
  prop event1 (str "type") = Some (JStr (str "tool-input-available")) ->
  prop event1 (str "toolCallId") = Some (JStr c) ->
  trim line2 ≠ [] -> JSON_parse (trim line2) = Some event2 ->
  prop event2 (str "type") = Some (JStr (str "tool-output-available")) ->
  prop event2 (str "toolCallId") = Some (JStr c) ->
  ∃ s1 s2 inv,
    processLine line1 s = (s1, Normal)
    ∧ processLine line2 s1 = (s2, Normal)
    ∧ invocations_of c (messages (snapshot s2)) = [inv]
    ∧ length (filter (λ m, carries c m = true) (messages (snapshot s2))) = 1
    ∧ state inv = result
    ∧ toolResult inv = prop event2 (str "output")
    ∧ toolName inv = prop event1 (str "toolName")
    ∧ args inv = prop event1 (str "input").
Proof.
  intros Hs%reachable_consistent Hc Hline1 Hparse1 Htype1 Hid1
    Hline2 Hparse2 Htype2 Hid2.
  assert (tool_event_state event1 = Some call) as Hst1.
  { unfold tool_event_state. by rewrite Htype1. }
  assert (tool_event_state event2 = Some result) as Hst2.
  { unfold tool_event_state. by rewrite Htype2. }
  destruct (tool_event_step line1 event1 call c s Hs Hc Hline1 Hparse1 Hst1 Hid1)
    as (s1 & inv1 & Hstep1 & Hs1 & Hinv1 & _ & Hfirst & _).
  destruct (tool_event_step line2 event2 result c s1 Hs1 Hc Hline2 Hparse2 Hst2 Hid2)
    as (s2 & inv2 & Hstep2 & _ & Hinv2 & Hstate2 & _ & Hresult & Hkept & _).
  destruct (Hfirst eq_refl) as [Hname Hargs].
  destruct (Hkept inv1 Hinv1 eq_refl) as [Hname2 Hargs2].
  exists s1, s2, inv2.
  split; [exact Hstep1 |]. split; [exact Hstep2 |]. split; [exact Hinv2 |].
  split. { apply one_invocation_one_message. by rewrite Hinv2. }
  split; [exact Hstate2 |]. split; [by apply Hresult |].
  split; congruence.
Qed.

End Properties.

(** * The listeners, the request lifecycle and the transcript

    The listeners, the request lifecycle as its caller sees it, the edges of
    the dispatcher, and the invariants of the transcript. *)

Section Behaviour.
Context `{Platform}.

(** ** Listeners and notifications *)

Lemma restore_listeners s : set_listeners (listeners s) s = s.
Proof. by destruct s. Qed.

Lemma filter_other_fresh (l : nat) (ls : list nat) :
  l ∉ ls -> filter (λ x, x ≠ l) (ls ++ [l]) = ls.
Proof.
  intros Hl. rewrite filter_app, filter_cons_False, filter_nil, app_nil_r by tauto.
  induction ls as [| x ls IH]; [done |].
  apply not_elem_of_cons in Hl as [Hx Hl].
  rewrite filter_cons_True by done. by rewrite IH.
Qed.

(** X1: the listeners are a set.  Subscribing a listener that is subscribed
    changes nothing; unsubscribing removes the listener however many times it
    was subscribed; and subscribing a listener that was not subscribed, then
    unsubscribing it, gives the session back. *)
Theorem subscribe_unsubscribe l s :
  subscribe l (subscribe l s) = subscribe l s
  ∧ (l ∉ listeners (unsubscribe l (subscribe l (subscribe l s))))
  ∧ (l ∉ listeners s -> unsubscribe l (subscribe l s) = s).
Proof.
  split; [| split].
  - unfold subscribe at 1. rewrite bool_decide_true; [done |].
    unfold subscribe. case_bool_decide; [done |]. cbn. set_solver.
  - unfold unsubscribe. cbn [listeners set_listeners].
    intros [Hne _]%list_elem_of_filter. by apply Hne.
  - intros Hl. unfold subscribe. rewrite bool_decide_false by done.
    unfold unsubscribe. cbn [listeners set_listeners].
    rewrite filter_other_fresh by done.
    change (set_listeners (listeners s) (set_listeners (listeners s ++ [l]) s))
      with (set_listeners (listeners s) s).
    apply restore_listeners.
Qed.

Lemma listeners_updateSnapshot partial s :
  listeners (updateSnapshot partial s) = listeners s.
Proof. reflexivity. Qed.

Lemma listeners_handleTextDelta delta s :
  listeners (handleTextDelta delta s) = listeners s.
Proof. unfold handleTextDelta. by destruct (held _). Qed.

Lemma listeners_handleToolEvent c st u s :
  listeners (handleToolEvent c st u s) = listeners s.
Proof. unfold handleToolEvent. by destruct (held _). Qed.

Lemma listeners_dispatchEvent event s :
  listeners (dispatchEvent event s).1 = listeners s.
Proof.
  destruct event; try reflexivity.
  unfold dispatchEvent; repeat case_match; cbn [fst];
    rewrite ?listeners_handleTextDelta; try reflexivity.
  all: try (destruct (is_string _ _)); cbn;
    rewrite ?listeners_handleToolEvent; try reflexivity.
Qed.

Lemma listeners_processLine rawLine s :
  listeners (processLine rawLine s).1 = listeners s.
Proof.
  unfold processLine, parseLine.
  destruct (negb _); [done |].
  destruct (JSON_parse _); [apply listeners_dispatchEvent | done].
Qed.

Lemma listeners_prologue text options s :
  listeners (sendMessage_prologue text options s) = listeners s.
Proof. unfold sendMessage_prologue. cbn. by destruct (abortController s). Qed.

Lemma listeners_catch e s : listeners (sendMessage_catch e s) = listeners s.
Proof.
  unfold sendMessage_catch. destruct e; [case_bool_decide |]; cbn;
    try reflexivity; by destruct (has_onError s).
Qed.

Lemma listeners_stop s : listeners (stop s) = listeners s.
Proof. unfold stop. by destruct (abortController s). Qed.

Lemma reachable_listeners s : reachable s -> NoDup (listeners s).
Proof.
  induction 1 as [onError | l s _ IH | l s _ IH | v s _ IH | b s _ IH | u b s _ IH
                 | text options s _ IH Hgo | s _ IH | rawLine s _ IH | s _ IH
                 | e s _ IH | s _ IH].
  - constructor.
  - unfold subscribe. case_bool_decide; [done |]. cbn.
    apply NoDup_app. split; [done |]. split; [| apply NoDup_singleton].
    intros x Hx ->%list_elem_of_singleton. done.
  - cbn. by apply NoDup_filter.
  - exact IH.
  - exact IH.
  - exact IH.
  - by rewrite listeners_prologue.
  - exact IH.
  - by rewrite listeners_processLine.
  - exact IH.
  - by rewrite listeners_catch.
  - by rewrite listeners_stop.
Qed.

Lemma notified_emit l s :
  notified l (emit s)
  = replicate (length (filter (λ x, x = l) (listeners s))) (snapshot s)
    ++ notified l s.
Proof.
  unfold notified, emit. cbn [calls set_calls snapshot].
  rewrite omap_app. f_equal.
  induction (listeners s) as [| x ls IH]; [done |].
  cbn [map rev]. rewrite omap_app, IH. cbn [omap list_omap].
  rewrite filter_cons. clear IH.
  destruct (decide (x = l)) as [-> | Hx].
  - rewrite bool_decide_true by done. cbn [length].
    symmetry. apply replicate_S_end.
  - rewrite bool_decide_false by done. apply app_nil_r.
Qed.

Lemma count_NoDup (l : nat) (ls : list nat) :
  NoDup ls ->
  length (filter (λ x, x = l) ls) = if bool_decide (l ∈ ls) then 1 else 0.
Proof.
  induction 1 as [| x ls Hx Hls IH]; [done |].
  rewrite filter_cons. destruct (decide (x = l)) as [-> | Hne].
  - rewrite bool_decide_true by left. cbn [length]. rewrite IH.
    by rewrite bool_decide_false.
  - rewrite IH. apply f_equal with (f := λ b : bool, if b then 1 else 0).
    apply bool_decide_ext. rewrite elem_of_cons.
    split; [by right | by intros [-> | ?]].
Qed.

(** X2: in a session reached from a fresh controller, an update of the
    snapshot calls every subscribed listener exactly once, after the new
    snapshot is installed, so that this is what [getSnapshot] gives the
    listener, and calls no listener that is not subscribed. *)
Theorem update_notifies_once partial l s :
  reachable s ->
  notified l (updateSnapshot partial s)
  = (if bool_decide (l ∈ listeners s) then [merge (snapshot s) partial] else [])
    ++ notified l s.
Proof.
  intros Hs%reachable_listeners. unfold updateSnapshot.
  rewrite notified_emit. cbn [listeners set_snapshot snapshot].
  rewrite (count_NoDup _ _ Hs). by case_bool_decide.
Qed.

(** ** What a line leaves alone *)

Lemma omap_notifications {A} (f : Call -> option A) (seen : Snapshot) (ls : list nat) :
  (∀ l, f (Notified l seen) = None) ->
  omap f (rev (map (λ l, Notified l seen) ls)) = [].
Proof.
  intros Hf. induction ls as [| l ls IH]; [done |].
  cbn [map rev]. rewrite omap_app, IH. cbn. by rewrite Hf.
Qed.

Lemma errors_reported_emit s : errors_reported (emit s) = errors_reported s.
Proof.
  unfold errors_reported, emit. cbn [calls set_calls].
  by rewrite omap_app, omap_notifications.
Qed.

Lemma aborts_emit s : aborts (emit s) = aborts s.
Proof.
  unfold aborts, emit. cbn [calls set_calls].
  by rewrite omap_app, omap_notifications.
Qed.

Lemma requests_emit s : requests (emit s) = requests s.
Proof.
  unfold requests, emit. cbn [calls set_calls].
  by rewrite omap_app, omap_notifications.
Qed.

Lemma outside_replaceMessages msgs s :
  outside_stream (replaceMessages msgs s) = outside_stream s.
Proof.
  unfold outside_stream, replaceMessages, updateSnapshot.
  rewrite aborts_emit, requests_emit. reflexivity.
Qed.

Lemma outside_set_status st s :
  outside_stream (updateSnapshot (set_status st) s) = outside_stream s.
Proof.
  unfold outside_stream, updateSnapshot.
  rewrite aborts_emit, requests_emit. reflexivity.
Qed.

Lemma outside_handleTextDelta delta s :
  outside_stream (handleTextDelta delta s) = outside_stream s.
Proof.
  unfold handleTextDelta. destruct (held _); cbv zeta;
    by rewrite outside_replaceMessages.
Qed.

Lemma outside_handleToolEvent c st u s :
  outside_stream (handleToolEvent c st u s) = outside_stream s.
Proof.
  unfold handleToolEvent. destruct (held _); cbv zeta;
    by rewrite outside_replaceMessages.
Qed.

Lemma outside_set_active v s :
  outside_stream (set_activeScreenshotToolId v s) = outside_stream s.
Proof. reflexivity. Qed.

Lemma outside_dispatchEvent event s :
  outside_stream (dispatchEvent event s).1 = outside_stream s.
Proof.
  destruct event; try reflexivity.
  unfold dispatchEvent; repeat case_match; cbn [fst]; subst;
    rewrite ?outside_set_active, ?outside_handleTextDelta,
      ?outside_handleToolEvent, ?outside_set_status; reflexivity.
Qed.

Lemma outside_processLine rawLine s :
  outside_stream (processLine rawLine s).1 = outside_stream s.
Proof.
  unfold processLine, parseLine.
  destruct (negb _); [done |].
  destruct (JSON_parse _); [apply outside_dispatchEvent | done].
Qed.


(** ** The request lifecycle, from the caller's side *)

Section LoopInvariant.
Context {St : Type} (onLine : jsstring -> St -> St * Completion) (P : St -> Prop).
Hypothesis step : ∀ l st, P st -> P (onLine l st).1.

Lemma drainLines_fuel_preserves fuel buffer st :
  P st -> P (drainLines_fuel onLine fuel buffer st).1.2.
Proof using step.
  revert buffer st. induction fuel as [| fuel IH]; intros buffer st Hst; [done |].
  cbn [drainLines_fuel]. destruct (indexOf newline buffer) as [i |]; [| done].
  pose proof (step (take i buffer) st Hst) as Hnext.
  destruct (onLine (take i buffer) st) as [st' []]; [by apply IH | done | done].
Qed.

Lemma readLoop_preserves reads buffer d st :
  P st -> P (readLoop onLine reads buffer d st).1.
Proof using step.
  revert buffer d st.
  induction reads as [| [value | | e] reads IH]; intros buffer d st Hst;
    cbn [readLoop]; [done | | | done].
  - destruct (decode d value) as [d' text].
    pose proof (drainLines_fuel_preserves (S (length (buffer ++ text)))
                  (buffer ++ text) st Hst) as Hnext.
    fold (drainLines onLine (buffer ++ text) st) in Hnext.
    destruct (drainLines onLine (buffer ++ text) st) as [[buffer' st'] []];
      [by apply IH | done | done].
  - destruct (nonempty (trim buffer)); [| done].
    pose proof (step buffer st Hst) as Hnext.
    by destruct (onLine buffer st) as [st' []].
Qed.

End LoopInvariant.

Lemma body_outside t s :
  outside_stream (sendMessage_body t s).1 = outside_stream s.
Proof.
  unfold sendMessage_body.
  destruct (fetched t) as [[e | ok http_status has_body] |]; try done.
  destruct (negb ok); [done |]. destruct (negb has_body); [done |]. cbv zeta.
  rewrite <- (outside_set_status streaming s).
  apply (readLoop_preserves processLine
           (λ st, outside_stream st
                  = outside_stream (updateSnapshot (set_status streaming) s)));
    [| done].
  intros l st <-. apply outside_processLine.
Qed.

Lemma calls_prologue text options s :
  calls (sendMessage_prologue text options s)
  = FetchIssued (messages (snapshot (sendMessage_prologue text options s)))
      (Date_now (S (ticks s))) (sandboxId (snapshot s))
    :: match abortController s with
       | Some old => [AbortSignalled old]
       | None => []
       end
    ++ rev (map (λ l, Notified l (snapshot (sendMessage_prologue text options s)))
              (listeners s))
    ++ calls s.
Proof.
  unfold sendMessage_prologue. cbn. by destruct (abortController s).
Qed.

Lemma snapshot_prologue text options s :
  snapshot (sendMessage_prologue text options s)
  = {| messages :=
         messages (snapshot s)
         ++ [{| id := str "user-" ++ Date_now (ticks s) ++ str "-"
                      ++ Math_random (ticks s);
                role := user; content := Some (trim text); parts := None |}];
       input := match options with
                | Some {| clearInput := Some true |} => []
                | _ => input (snapshot s)
                end;
       status := submitted;
       isInitializing := isInitializing (snapshot s);
       streamUrl := streamUrl (snapshot s);
       sandboxId := sandboxId (snapshot s) |}.
Proof.
  unfold sendMessage_prologue. cbn. by destruct (abortController s).
Qed.

Lemma pointers_prologue text options s :
  currentTextId (sendMessage_prologue text options s) = None
  ∧ activeScreenshotToolId (sendMessage_prologue text options s) = None
  ∧ toolMessageMap (sendMessage_prologue text options s) = toolMessageMap s
  ∧ has_onError (sendMessage_prologue text options s) = has_onError s
  ∧ abortController (sendMessage_prologue text options s) = Some (controllers s)
  ∧ controllers (sendMessage_prologue text options s) = S (controllers s).
Proof.
  unfold sendMessage_prologue. cbn. by destruct (abortController s).
Qed.

Lemma errors_reported_prologue text options s :
  errors_reported (sendMessage_prologue text options s) = errors_reported s.
Proof.
  unfold errors_reported. rewrite calls_prologue. cbn [omap list_omap].
  rewrite !omap_app, omap_notifications by done.
  by destruct (abortController s).
Qed.

Lemma aborts_prologue text options s :
  aborts (sendMessage_prologue text options s)
  = match abortController s with Some old => [old] | None => [] end ++ aborts s.
Proof.
  unfold aborts. rewrite calls_prologue. cbn [omap list_omap].
  rewrite !omap_app, omap_notifications by done.
  by destruct (abortController s).
Qed.

Lemma requests_prologue text options s :
  requests (sendMessage_prologue text options s)
  = (messages (snapshot (sendMessage_prologue text options s)), sandboxId (snapshot s))
    :: requests s.
Proof.
  unfold requests. rewrite calls_prologue. cbn [omap list_omap].
  rewrite !omap_app, omap_notifications by done.
  by destruct (abortController s).
Qed.

Lemma errors_reported_set_status st s :
  errors_reported (updateSnapshot (set_status st) s) = errors_reported s.
Proof. unfold updateSnapshot. by rewrite errors_reported_emit. Qed.

(** What the [catch] block hands to the error callback. *)
Lemma errors_reported_catch e s :
  errors_reported (sendMessage_catch e s)
  = match e with
    | ThrownError name message =>
        if bool_decide (name = str "AbortError") then []
        else if has_onError s then [(name, message)] else []
    | ThrownValue rendering =>
        if has_onError s then [(str "Error", rendering)] else []
    end ++ errors_reported s.
Proof.
  unfold sendMessage_catch. rewrite errors_reported_set_status.
  destruct e as [name message | rendering]; [case_bool_decide |]; cbn;
    try reflexivity; by destruct (has_onError s).
Qed.

(** X4: a turn that is cancelled tells the error callback nothing: when the
    [try] block is left by an AbortError, the turn settles with the status
    [ready], the errors reported are those reported before the abort, and the
    abort is written to the console. *)
Theorem cancellation_is_silent text options t message s s1 :
  sendMessage_refused text s = false ->
  sendMessage_body t (sendMessage_prologue text options s)
  = (s1, Abrupt (ThrownError (str "AbortError") message)) ->
  ∃ s2, sendMessage text options t s = (s2, Resolved)
        ∧ status (snapshot s2) = ready
        ∧ errors_reported s2 = errors_reported s1
        ∧ console s2 = StreamingAbortedLogged :: console s1.
Proof.
  intros Hgo Hbody. eexists. unfold sendMessage. rewrite Hgo, Hbody.
  split; [reflexivity |]. split; [apply catch_ready |].
  split; [by rewrite errors_reported_catch | reflexivity].
Qed.

(** X5: a response that is not ok, or that has no body, fails the turn
    before anything is read: the turn settles with the status [ready], the
    transcript has gained the user message and nothing else, and the error
    callback, if there is one, is called once, with "HTTP " and the status
    for a response that is not ok and with "No response body" otherwise. *)
Theorem failed_response_is_reported text options ok http_status has_body rs s :
  sendMessage_refused text s = false ->
  ok = false ∨ has_body = false ->
  ∃ s2 userMessage,
    sendMessage text options
      {| fetched := Some (FetchResolved ok http_status has_body); reads := rs |} s
    = (s2, Resolved)
    ∧ status (snapshot s2) = ready
    ∧ messages (snapshot s2) = messages (snapshot s) ++ [userMessage]
    ∧ role userMessage = user
    ∧ errors_reported s2
      = (if has_onError s then
           [(str "Error",
             if ok then str "No response body" else str "HTTP " ++ http_status)]
         else [])
        ++ errors_reported s.
Proof.
  intros Hgo Hcase. unfold sendMessage. rewrite Hgo.
  unfold sendMessage_body. cbn [fetched].
  destruct (pointers_prologue text options s) as (_ & _ & _ & HonError & _).
  assert (∀ e, messages (snapshot (sendMessage_catch e (sendMessage_prologue text options s)))
               = messages (snapshot s)
                 ++ [{| id := str "user-" ++ Date_now (ticks s) ++ str "-"
                              ++ Math_random (ticks s);
                        role := user; content := Some (trim text); parts := None |}])
    as Hmessages.
  { intros e. destruct (catch_ready e (sendMessage_prologue text options s)) as [_ ->].
    by rewrite snapshot_prologue. }
  destruct ok; cbn [negb].
  - destruct Hcase as [? | ->]; [done |]. cbn [negb].
    eexists _, _. split; [reflexivity |]. split; [apply catch_ready |].
    split; [apply Hmessages |]. split; [reflexivity |].
    rewrite errors_reported_catch, errors_reported_prologue, HonError.
    by rewrite bool_decide_false.
  - eexists _, _. split; [reflexivity |]. split; [apply catch_ready |].
    split; [apply Hmessages |]. split; [reflexivity |].
    rewrite errors_reported_catch, errors_reported_prologue, HonError.
    by rewrite bool_decide_false.
Qed.

Lemma outside_abortController s s' :
  outside_stream s' = outside_stream s ->
  abortController s' = abortController s
  ∧ controllers s' = controllers s
  ∧ aborts s' = aborts s
  ∧ requests s' = requests s
  ∧ has_onError s' = has_onError s
  ∧ isInitializing (snapshot s') = isInitializing (snapshot s).
Proof. unfold outside_stream. intros [=]. by repeat split. Qed.

Lemma outside_catch e s :
  outside_stream (sendMessage_catch e s) = outside_stream s.
Proof.
  unfold sendMessage_catch. rewrite outside_set_status.
  destruct e; [case_bool_decide |]; cbn; try reflexivity;
    by destruct (has_onError s).
Qed.

(** X6: the code that settles a turn, after the loop or in the [catch]
    block, leaves the status [ready] in whatever session it runs, so however
    the calls interleave.  And in a [sendMessage] that no other call
    interleaves with: a turn that has settled leaves the status [ready],
    whatever the transport did; a turn still awaiting the transport holds the
    abort controller it made; and the field holds nothing or that
    controller. *)
Theorem settled_turn_is_ready text options t e s :
  (status (snapshot (sendMessage_epilogue s)) = ready
   ∧ status (snapshot (sendMessage_catch e s)) = ready)
  ∧ (sendMessage_refused text s = false ->
     ((sendMessage text options t s).2 = Resolved ->
      status (snapshot (sendMessage text options t s).1) = ready)
     ∧ ((sendMessage text options t s).2 = Pending ->
        abortController (sendMessage text options t s).1 = Some (controllers s))
     ∧ (abortController (sendMessage text options t s).1 = None
        ∨ abortController (sendMessage text options t s).1 = Some (controllers s))).
Proof.
  split. { split; [reflexivity | apply catch_ready]. }
  intros Hgo. unfold sendMessage. rewrite Hgo.
  destruct (outside_abortController _ _
              (body_outside t (sendMessage_prologue text options s)))
    as (Hcontroller & _).
  destruct (pointers_prologue text options s) as (_ & _ & _ & _ & Hmade & _).
  rewrite Hmade in Hcontroller.
  destruct (sendMessage_body t (sendMessage_prologue text options s))
    as [s1 [| e' | |]]; cbn [fst snd] in *.
  - split; [done |]. split; [done |]. by left.
  - split; [intros _; apply catch_ready |]. split; [done |]. right.
    rewrite <- Hcontroller. apply outside_abortController, outside_catch.
  - split; [done |]. split; [done |]. by right.
  - split; [done |]. split; [done |]. by right.
Qed.

Lemma refused_after_ready text s s' :
  status (snapshot s') = ready ->
  isInitializing (snapshot s') = isInitializing (snapshot s) ->
  trim text ≠ [] -> isInitializing (snapshot s) = false ->
  sendMessage_refused text s' = false.
Proof.
  intros Hst Hinit Htext Hfalse. unfold sendMessage_refused.
  rewrite Hst, Hinit, Hfalse. by destruct (trim text).
Qed.

(** X7: the body of the request of a turn is built from the whole
    transcript, the new user message included, and from the sandbox id most
    recently given to [updateDesktop] (the extra body fields of the
    constructor are spread after them); the turn leaves the stream URL and the
    sandbox id as they were set and the draft input as it was, unless
    [clearInput] is true, in which case the draft is emptied. *)
Theorem request_carries_transcript url sandbox text options rs s :
  trim text ≠ [] ->
  status (snapshot s) = ready ->
  isInitializing (snapshot s) = false ->
  ∃ s',
    sendMessage text options {| fetched := None; reads := rs |}
      (updateDesktop url sandbox s) = (s', Pending)
    ∧ requests s' = (messages (snapshot s'), sandbox) :: requests s
    ∧ (∃ userMessage, messages (snapshot s') = messages (snapshot s) ++ [userMessage])
    ∧ input (snapshot s')
      = match options with
        | Some {| clearInput := Some true |} => []
        | _ => input (snapshot s)
        end
    ∧ streamUrl (snapshot s') = url
    ∧ sandboxId (snapshot s') = sandbox.
Proof.
  intros Htext Hst Hinit.
  exists (sendMessage_prologue text options (updateDesktop url sandbox s)).
  unfold sendMessage.
  rewrite (refused_after_ready text s (updateDesktop url sandbox s)) by done.
  cbn [sendMessage_body fetched]. split; [reflexivity |].
  rewrite requests_prologue, snapshot_prologue. cbn [messages input streamUrl sandboxId].
  split. { unfold updateDesktop, updateSnapshot. by rewrite requests_emit. }
  split; [by eexists |]. by repeat split.
Qed.

Lemma aborts_stop s :
  aborts (stop s)
  = match abortController s with Some c => [c] | None => [] end ++ aborts s.
Proof.
  unfold stop, updateSnapshot. rewrite aborts_emit.
  by destruct (abortController s).
Qed.

Lemma abortController_stop s : abortController (stop s) = None.
Proof.
  unfold stop. destruct (abortController s) eqn:Hc; [reflexivity | exact Hc].
Qed.

Lemma snapshot_stop s :
  snapshot (stop s) = merge (snapshot s) (set_status ready).
Proof. unfold stop. destruct (abortController s); reflexivity. Qed.

(** X8: [stop] tells the controller in use, if there is one, to abort, once,
    and forgets it; called again, or with no request in flight, it signals no
    abort and leaves the snapshot as it is; and after it a message that is not
    blank is accepted, provided the session is not initialising. *)
Theorem stop_cancels_once s :
  abortController (stop s) = None
  ∧ aborts (stop s)
    = match abortController s with Some c => [c] | None => [] end ++ aborts s
  ∧ (abortController s = None -> aborts (stop s) = aborts s)
  ∧ aborts (stop (stop s)) = aborts (stop s)
  ∧ snapshot (stop (stop s)) = snapshot (stop s)
  ∧ (∀ text, trim text ≠ [] -> isInitializing (snapshot s) = false ->
             sendMessage_refused text (stop s) = false).
Proof.
  split; [apply abortController_stop |]. split; [apply aborts_stop |].
  split. { intros Hnone. by rewrite aborts_stop, Hnone. }
  split. { by rewrite (aborts_stop (stop s)), abortController_stop. }
  split. { by rewrite !snapshot_stop. }
  intros text Htext Hinit.
  apply (refused_after_ready text s);
    [apply stop_ready | by rewrite snapshot_stop | done | done].
Qed.

Lemma controllers_numbered_frame s s' :
  outside_stream s' = outside_stream s ->
  controllers_numbered s -> controllers_numbered s'.
Proof.
  intros (Hc & Hn & Ha & _)%outside_abortController [Hcur Habt].
  split; rewrite ?Hc, ?Hn, ?Ha; assumption.
Qed.

Lemma reachable_controllers s : reachable s -> controllers_numbered s.
Proof.
  induction 1 as [onError | l s _ IH | l s _ IH | v s _ IH | b s _ IH | u b s _ IH
                 | text options s _ IH Hgo | s _ IH | rawLine s _ IH | s _ IH
                 | e s _ IH | s _ IH].
  - split; [done |]. intros c Hc. by apply not_elem_of_nil in Hc.
  - unfold subscribe. case_bool_decide; [done |]. by destruct IH.
  - by destruct IH.
  - destruct IH as [Hcur Habt]. split; [done |].
    unfold setInput, updateSnapshot. by rewrite aborts_emit.
  - destruct IH as [Hcur Habt]. split; [done |].
    unfold setInitializing, updateSnapshot. by rewrite aborts_emit.
  - destruct IH as [Hcur Habt]. split; [done |].
    unfold updateDesktop, updateSnapshot. by rewrite aborts_emit.
  - destruct IH as [Hcur Habt].
    destruct (pointers_prologue text options s) as (_ & _ & _ & _ & Hmade & Hnext).
    split; rewrite ?Hmade, ?Hnext, ?aborts_prologue.
    + intros c [= <-]. lia.
    + intros c [Hc | Hc]%elem_of_app; [| specialize (Habt c Hc); lia].
      destruct (abortController s) as [old |] eqn:Hold;
        [| by apply not_elem_of_nil in Hc].
      apply list_elem_of_singleton in Hc as ->. specialize (Hcur old eq_refl). lia.
  - eapply controllers_numbered_frame; [apply outside_set_status | done].
  - eapply controllers_numbered_frame; [apply outside_processLine | done].
  - destruct IH as [Hcur Habt]. split; [done |].
    unfold sendMessage_epilogue, updateSnapshot. by rewrite aborts_emit.
  - eapply controllers_numbered_frame; [apply outside_catch | done].
  - destruct IH as [Hcur Habt].
    assert (controllers (stop s) = controllers s) as Hsame.
    { unfold stop. destruct (abortController s); reflexivity. }
    split; rewrite Hsame.
    + by rewrite abortController_stop.
    + rewrite aborts_stop. intros c [Hc | Hc]%elem_of_app; [| by apply Habt].
      destruct (abortController s) as [old |] eqn:Hold;
        [| by apply not_elem_of_nil in Hc].
      apply list_elem_of_singleton in Hc as ->. by apply Hcur.
Qed.

(** X9: in a session reached from a fresh controller, an accepted
    [sendMessage] tells the abort controller left by an earlier turn, if there
    is one, to abort, and goes on with a controller of its own that is not
    that one and has never been told to abort. *)
Theorem new_turn_new_controller text options rs s :
  reachable s ->
  sendMessage_refused text s = false ->
  ∃ s' mine,
    sendMessage text options {| fetched := None; reads := rs |} s = (s', Pending)
    ∧ abortController s' = Some mine
    ∧ (mine ∉ aborts s')
    ∧ (∀ old, abortController s = Some old -> old ≠ mine ∧ old ∈ aborts s').
Proof.
  intros [Hcur Habt]%reachable_controllers Hgo.
  exists (sendMessage_prologue text options s), (controllers s).
  unfold sendMessage. rewrite Hgo. cbn [sendMessage_body fetched].
  split; [reflexivity |].
  split. { apply pointers_prologue. }
  rewrite aborts_prologue. split.
  - intros [Hc | Hc]%elem_of_app; [| specialize (Habt _ Hc); lia].
    destruct (abortController s) as [old |] eqn:Hold;
      [| by apply not_elem_of_nil in Hc].
    apply list_elem_of_singleton in Hc. specialize (Hcur old eq_refl). lia.
  - intros old Hold. rewrite Hold. split.
    + specialize (Hcur old Hold). lia.
    + apply elem_of_app. left. left.
Qed.

(** ** The dispatcher at its edges *)

Lemma is_string_false v lit : v ≠ Some (JStr lit) -> is_string v lit = false.
Proof.
  intros Hne. destruct v as [[] |]; try done. cbn.
  apply bool_decide_eq_false. by intros ->.
Qed.

(** X10: an event that is not null and whose type is none of the six kinds
    the dispatcher knows (be it another string, another value, or absent, as
    for an array or a number) is ignored: the session is what it was. *)
Theorem unknown_event_ignored rawLine event s :
  JSON_parse (trim rawLine) = Some event ->
  event ≠ JNull ->
  (∀ kind, kind ∈ event_kinds -> prop event (str "type") ≠ Some (JStr kind)) ->
  processLine rawLine s = (s, Normal).
Proof.
  intros Hparse Hnull Hkind.
  destruct (decide (trim rawLine = [])) as [Hblank | Hline].
  { by apply processLine_blank. }
  rewrite (processLine_parsed _ _ _ Hline Hparse).
  assert (∀ kind, kind ∈ event_kinds ->
                  is_string (prop event (str "type")) kind = false) as Hno.
  { intros kind Hin. by apply is_string_false, Hkind. }
  unfold dispatchEvent.
  rewrite !Hno by (unfold event_kinds; set_solver).
  by destruct event.
Qed.

Lemma dispatch_tool_no_id event st s :
  tool_event_state event = Some st ->
  truthy (prop event (str "toolCallId")) = false ->
  dispatchEvent event s = (s, Normal).
Proof.
  intros Hst Hid.
  destruct (tool_event_state_type _ _ Hst) as [[_ Htype] | [_ Htype]];
    destruct event; try discriminate Htype;
    unfold dispatchEvent; rewrite Htype, Hid; reflexivity.
Qed.

(** X11: a tool-input-available or tool-output-available event whose
    [toolCallId] is missing, null, false, zero or the empty string is dropped:
    the session is what it was, and no message is made for it. *)
Theorem tool_event_without_id_dropped rawLine event st s :
  JSON_parse (trim rawLine) = Some event ->
  tool_event_state event = Some st ->
  truthy (prop event (str "toolCallId")) = false ->
  processLine rawLine s = (s, Normal).
Proof.
  intros Hparse Hst Hid.
  destruct (decide (trim rawLine = [])) as [Hblank | Hline].
  { by apply processLine_blank. }
  rewrite (processLine_parsed _ _ _ Hline Hparse).
  by apply (dispatch_tool_no_id _ st).
Qed.

Lemma dispatch_error event s :
  prop event (str "type") = Some (JStr (str "error")) ->
  dispatchEvent event s =
    match js_or (prop event (str "errorText"))
                (Some (JStr (str "Streaming error"))) with
    | Some (JStr message) =>
        (updateSnapshot (set_status ready)
           (if has_onError s then do_call (ErrorReported (str "Error") message) s
            else s), Normal)
    | _ => (s, Untyped)
    end.
Proof.
  intros Htype. destruct event; try discriminate Htype.
  unfold dispatchEvent. rewrite Htype. reflexivity.
Qed.

Lemma dispatch_finish event s :
  prop event (str "type") = Some (JStr (str "finish")) ->
  dispatchEvent event s
  = (updateSnapshot (set_status ready) (set_currentTextId None s), Normal).
Proof.
  intros Htype. destruct event; try discriminate Htype.
  unfold dispatchEvent. rewrite Htype. reflexivity.
Qed.

(** X12: an error event sets the status to [ready] and, when there is an
    error callback, calls it once with the text of the event, or with
    "Streaming error" when the text is absent or empty.  It does not end the
    reading, and it leaves the transcript and the open text message as they
    are. *)
Theorem error_event_is_reported rawLine event text s :
  trim rawLine ≠ [] ->
  JSON_parse (trim rawLine) = Some event ->
  prop event (str "type") = Some (JStr (str "error")) ->
  prop event (str "errorText") = JStr <$> text ->
  ∃ s',
    processLine rawLine s = (s', Normal)
    ∧ status (snapshot s') = ready
    ∧ messages (snapshot s') = messages (snapshot s)
    ∧ currentTextId s' = currentTextId s
    ∧ errors_reported s'
      = (if has_onError s then
           [(str "Error",
             match text with
             | Some (c :: r) => c :: r
             | _ => str "Streaming error"
             end)]
         else [])
        ++ errors_reported s.
Proof.
  intros Hline Hparse Htype Htext.
  rewrite (processLine_parsed _ _ _ Hline Hparse), (dispatch_error _ _ Htype), Htext.
  destruct text as [[| c r] |]; cbn [fmap option_fmap option_map js_or truthy nonempty];
    eexists; (split; [reflexivity |]);
    rewrite errors_reported_set_status;
    destruct (has_onError s); by repeat split.
Qed.

(** X13: a finish event sets the status to [ready] and closes the text
    accumulation without touching the transcript, so that the text delta that
    follows it opens a new assistant message instead of being appended to the
    one before. *)
Theorem finish_closes_text line1 line2 event1 event2 d s :
  trim line1 ≠ [] -> JSON_parse (trim line1) = Some event1 ->
  prop event1 (str "type") = Some (JStr (str "finish")) ->
  trim line2 ≠ [] -> JSON_parse (trim line2) = Some event2 ->
  prop event2 (str "type") = Some (JStr (str "text-delta")) ->
  prop event2 (str "delta") = Some (JStr d) -> d ≠ [] ->
  ∃ s1 s2 added,
    processLine line1 s = (s1, Normal)
    ∧ status (snapshot s1) = ready
    ∧ currentTextId s1 = None
    ∧ messages (snapshot s1) = messages (snapshot s)
    ∧ processLine line2 s1 = (s2, Normal)
    ∧ messages (snapshot s2) = messages (snapshot s) ++ [added]
    ∧ role added = assistant
    ∧ content added = Some d.
Proof.
  intros Hline1 Hparse1 Htype1 Hline2 Hparse2 Htype2 Hdelta Hd.
  eexists _, _, _.
  rewrite (processLine_parsed _ _ _ Hline1 Hparse1), (dispatch_finish _ _ Htype1).
  split; [reflexivity |]. split; [reflexivity |]. split; [reflexivity |].
  split; [reflexivity |].
  rewrite (processLine_parsed _ _ _ Hline2 Hparse2),
    (dispatch_text_delta_string _ _ _ Htype2 Hdelta Hd).
  rewrite handleTextDelta_open by reflexivity.
  split; [reflexivity |]. by repeat split.
Qed.

(** ** Tool events, the map of tool calls and the open text *)

(** What a tool event that carries a call id does. *)
Lemma processLine_tool_event rawLine event st c s :
  c ≠ [] -> trim rawLine ≠ [] -> JSON_parse (trim rawLine) = Some event ->
  tool_event_state event = Some st ->
  prop event (str "toolCallId") = Some (JStr c) ->
  processLine rawLine s
  = (if screenshot_target event
     then set_activeScreenshotToolId (Some c)
            (handleToolEvent c st (tool_event_updates event) s)
     else handleToolEvent c st (tool_event_updates event) s, Normal).
Proof.
  intros Hc Hline Hparse Hst Hid.
  rewrite (processLine_parsed _ _ _ Hline Hparse).
  unfold screenshot_target, tool_event_updates.
  destruct (tool_event_state_type _ _ Hst) as [[-> Htype] | [-> Htype]].
  - rewrite (dispatch_tool_input _ _ _ Htype Hid Hc), Htype. reflexivity.
  - rewrite (dispatch_tool_output _ _ _ Htype Hid Hc), Htype. reflexivity.
Qed.

Lemma marking_frame (b : bool) c s :
  let s' := if b then set_activeScreenshotToolId (Some c) s else s in
  snapshot s' = snapshot s ∧ toolMessageMap s' = toolMessageMap s
  ∧ currentTextId s' = currentTextId s.
Proof. by destruct b. Qed.

(** X14: a tool event for a call the session has not seen closes the text
    accumulation, so that the next text delta opens a new message; a tool event
    for a call it has seen changes that call's message in place and leaves the
    text accumulation open. *)
Theorem tool_event_and_open_text rawLine event st c s :
  reachable s -> c ≠ [] ->
  trim rawLine ≠ [] -> JSON_parse (trim rawLine) = Some event ->
  tool_event_state event = Some st ->
  prop event (str "toolCallId") = Some (JStr c) ->
  (toolMessageMap s !! c = None ->
   currentTextId (processLine rawLine s).1 = None
   ∧ length (messages (snapshot (processLine rawLine s).1))
     = S (length (messages (snapshot s))))
  ∧ (is_Some (toolMessageMap s !! c) ->
     currentTextId (processLine rawLine s).1 = currentTextId s
     ∧ length (messages (snapshot (processLine rawLine s).1))
       = length (messages (snapshot s))).
Proof.
  intros Hs%reachable_consistent Hc Hline Hparse Hst Hid.
  rewrite (processLine_tool_event _ _ _ _ _ Hc Hline Hparse Hst Hid). cbn [fst].
  destruct (marking_frame (screenshot_target event) c
              (handleToolEvent c st (tool_event_updates event) s))
    as (-> & _ & ->).
  split.
  - intros Hnew. rewrite (handleToolEvent_first _ _ _ _ Hnew). cbv zeta.
    split; [reflexivity |]. rewrite messages_replaceMessages, length_app. cbn. lia.
  - intros [mid Hseen]. destruct (mapped_once _ Hs c mid Hseen) as [Hmid _].
    rewrite (handleToolEvent_again _ _ _ _ _ Hseen Hmid).
    split; [reflexivity |]. by rewrite messages_replaceMessages, length_map.
Qed.

Lemma handleToolEvent_map c st u s :
  consistent s -> toolMessageMap s ⊆ toolMessageMap (handleToolEvent c st u s).
Proof.
  intros Hs. destruct (toolMessageMap s !! c) as [mid |] eqn:Hc.
  - destruct (mapped_once _ Hs c mid Hc) as [Hmid _].
    by rewrite (handleToolEvent_again _ _ _ _ _ Hc Hmid).
  - rewrite (handleToolEvent_first _ _ _ _ Hc). cbv zeta.
    rewrite toolMessageMap_replaceMessages. cbn. by apply insert_subseteq.
Qed.

Lemma handleTextDelta_map delta s :
  toolMessageMap (handleTextDelta delta s) = toolMessageMap s.
Proof. unfold handleTextDelta. by destruct (held _). Qed.

Lemma dispatchEvent_map event s :
  consistent s -> toolMessageMap s ⊆ toolMessageMap (dispatchEvent event s).1.
Proof.
  intros Hs. destruct event; try reflexivity.
  unfold dispatchEvent; repeat case_match; cbn [fst]; subst;
    try reflexivity;
    try (change (toolMessageMap (set_activeScreenshotToolId ?v ?x))
           with (toolMessageMap x));
    rewrite ?handleTextDelta_map; try reflexivity;
    by apply handleToolEvent_map.
Qed.


Lemma processLines_consistent ls s :
  consistent s -> consistent (processLines ls s).1.
Proof.
  unfold processLines. revert s. induction ls as [| l ls IH]; intros s Hs; [done |].
  cbn [run_lines]. pose proof (processLine_consistent l s Hs) as Hl.
  destruct (processLine l s) as [s' []]; cbn [fst] in *; [by apply IH | done | done].
Qed.


(** X16: in a session reached from a fresh controller there is one message
    for each tool call the session has seen and none for the others: a call id
    that is mapped is carried by exactly one message, the one whose id it is
    mapped to, and a call id that is not mapped is carried by no message. *)
Theorem one_message_per_tool_call c s :
  reachable s ->
  (toolMessageMap s !! c = None ->
   filter (λ m, carries c m = true) (messages (snapshot s)) = [])
  ∧ (∀ mid, toolMessageMap s !! c = Some mid ->
            ∃ m, filter (λ m, carries c m = true) (messages (snapshot s)) = [m]
                 ∧ id m = mid).
Proof.
  intros Hs%reachable_consistent.
  assert (∀ m, m ∈ messages (snapshot s) -> carries c m = true ->
               toolMessageMap s !! c = Some (id m)) as Hcarried.
  { intros m Hm Hcar.
    destruct (filter (λ inv, toolCallId inv = c) (tool_parts m)) as [| inv l] eqn:Hf.
    { apply carries_false in Hf. congruence. }
    assert (inv ∈ filter (λ inv, toolCallId inv = c) (tool_parts m)) as Hin
      by (rewrite Hf; left).
    apply list_elem_of_filter in Hin as [<- Hin].
    by apply (owner_mapped _ Hs). }
  split.
  - intros Hnone.
    destruct (filter _ (messages (snapshot s))) as [| m l] eqn:Hf; [done |].
    assert (m ∈ filter (λ m, carries c m = true) (messages (snapshot s))) as Hin
      by (rewrite Hf; left).
    apply list_elem_of_filter in Hin as [Hcar Hin].
    specialize (Hcarried m Hin Hcar). congruence.
  - intros mid Hc. destruct (mapped_once _ Hs c mid Hc) as [_ Hone].
    apply one_invocation_one_message in Hone.
    destruct (filter _ (messages (snapshot s))) as [| m [| ? ?]] eqn:Hf; try done.
    exists m. split; [done |].
    assert (m ∈ filter (λ m, carries c m = true) (messages (snapshot s))) as Hin
      by (rewrite Hf; left).
    apply list_elem_of_filter in Hin as [Hcar Hin].
    specialize (Hcarried m Hin Hcar). congruence.
Qed.

(** ** The transcript only grows *)








(** ** The user's messages *)












(** ** Screenshot updates *)

Lemma handleToolEvent_mapped c st u s :
  consistent s -> is_Some (toolMessageMap (handleToolEvent c st u s) !! c).
Proof.
  intros Hs. destruct (toolMessageMap s !! c) as [mid |] eqn:Hc.
  - destruct (mapped_once _ Hs c mid Hc) as [Hmid _].
    rewrite (handleToolEvent_again _ _ _ _ _ Hc Hmid).
    rewrite toolMessageMap_replaceMessages. by exists mid.
  - rewrite (handleToolEvent_first _ _ _ _ Hc). cbv zeta.
    rewrite toolMessageMap_replaceMessages. cbn. rewrite lookup_insert_eq. by eexists.
Qed.

Lemma active_handleToolEvent c st u s :
  activeScreenshotToolId (handleToolEvent c st u s) = activeScreenshotToolId s.
Proof. unfold handleToolEvent. by destruct (held _). Qed.

Lemma active_handleTextDelta delta s :
  activeScreenshotToolId (handleTextDelta delta s) = activeScreenshotToolId s.
Proof. unfold handleTextDelta. by destruct (held _). Qed.

Lemma truthy_string c : negb (truthy (Some (JStr c))) = false -> c ≠ [].
Proof. by destruct c. Qed.

Lemma active_kept s s' :
  (∀ c, activeScreenshotToolId s = Some c ->
        c ≠ [] ∧ is_Some (toolMessageMap s !! c)) ->
  toolMessageMap s ⊆ toolMessageMap s' ->
  activeScreenshotToolId s' = activeScreenshotToolId s ->
  ∀ c, activeScreenshotToolId s' = Some c ->
       c ≠ [] ∧ is_Some (toolMessageMap s' !! c).
Proof.
  intros Hactive Hmap -> c Hc. destruct (Hactive c Hc) as [Hne [mid Hmid]].
  split; [done |]. exists mid. by eapply lookup_weaken.
Qed.

Lemma active_marked c0 st u s :
  consistent s -> c0 ≠ [] ->
  ∀ c, activeScreenshotToolId
         (set_activeScreenshotToolId (Some c0) (handleToolEvent c0 st u s)) = Some c ->
       c ≠ [] ∧ is_Some (toolMessageMap
                           (set_activeScreenshotToolId (Some c0)
                              (handleToolEvent c0 st u s)) !! c).
Proof.
  intros Hs Hne c [= <-]. split; [done |]. by apply handleToolEvent_mapped.
Qed.

(** The call that receives the screenshots is one the session has a message
    for. *)
Lemma dispatchEvent_active event s :
  consistent s ->
  (∀ c, activeScreenshotToolId s = Some c ->
        c ≠ [] ∧ is_Some (toolMessageMap s !! c)) ->
  ∀ c, activeScreenshotToolId (dispatchEvent event s).1 = Some c ->
       c ≠ [] ∧ is_Some (toolMessageMap (dispatchEvent event s).1 !! c).
Proof.
  intros Hs Hactive. pose proof (dispatchEvent_map event s Hs) as Hmap.
  revert Hmap. destruct event; try (by intros _).
  unfold dispatchEvent; repeat case_match; cbn [fst]; subst; intros Hmap;
    try done;
    try (apply active_marked; [done |];
         match goal with
         | Ht : negb (truthy (Some (JStr _))) = false |- _ =>
             by apply truthy_string in Ht
         end);
    try (apply (active_kept s); [done | done |];
         by rewrite ?active_handleTextDelta, ?active_handleToolEvent).
Qed.

Lemma processLine_active rawLine s :
  consistent s ->
  (∀ c, activeScreenshotToolId s = Some c ->
        c ≠ [] ∧ is_Some (toolMessageMap s !! c)) ->
  ∀ c, activeScreenshotToolId (processLine rawLine s).1 = Some c ->
       c ≠ [] ∧ is_Some (toolMessageMap (processLine rawLine s).1 !! c).
Proof.
  intros Hs Hactive. unfold processLine, parseLine.
  destruct (negb _); [done |].
  destruct (JSON_parse _); [by apply dispatchEvent_active | done].
Qed.

Lemma reachable_active s :
  reachable s ->
  ∀ c, activeScreenshotToolId s = Some c ->
       c ≠ [] ∧ is_Some (toolMessageMap s !! c).
Proof.
  induction 1 as [onError | l s _ IH | l s _ IH | v s _ IH | b s _ IH | u b s _ IH
                 | text options s _ IH Hgo | s _ IH | rawLine s Hs IH | s _ IH
                 | e s _ IH | s _ IH].
  - done.
  - unfold subscribe. by case_bool_decide.
  - exact IH.
  - exact IH.
  - exact IH.
  - exact IH.
  - intros c. by destruct (pointers_prologue text options s) as (_ & -> & _).
  - exact IH.
  - by apply processLine_active; [apply reachable_consistent |].
  - exact IH.
  - unfold sendMessage_catch.
    destruct e; [case_bool_decide |]; cbn; try done; by destruct (has_onError s).
  - unfold stop. by destruct (abortController s).
Qed.

(** X19: a screenshot update with a payload goes to the call that was last
    marked as taking screenshots.  In a session reached from a fresh
    controller that call has one invocation in the transcript; the update
    puts it in state [result] with the image as its result, keeps its name and
    its arguments, and neither adds nor moves a message. *)
Theorem screenshot_goes_to_active_call rawLine event data c s :
  reachable s ->
  trim rawLine ≠ [] -> JSON_parse (trim rawLine) = Some event ->
  prop event (str "type") = Some (JStr (str "screenshot-update")) ->
  prop event (str "screenshot") = Some data -> truthy (Some data) = true ->
  activeScreenshotToolId s = Some c ->
  ∃ old,
    invocations_of c (messages (snapshot s)) = [old]
    ∧ invocations_of c (messages (snapshot (processLine rawLine s).1))
      = [{| toolCallId := c; toolName := toolName old; state := result;
            args := args old; argsText := argsText old;
            toolResult := Some (image_result data) |}]
    ∧ skeleton (messages (snapshot (processLine rawLine s).1))
      = skeleton (messages (snapshot s)).
Proof.
  intros Hs Hline Hparse Htype Hshot Hdata Hc.
  destruct (reachable_active s Hs c Hc) as [Hne [mid Hmid]].
  apply reachable_consistent in Hs.
  destruct (mapped_once _ Hs c mid Hmid) as [Hmidne Hone].
  destruct (invocations_of c (messages (snapshot s))) as [| old [| ? ?]] eqn:Hold;
    try done.
  exists old. split; [done |].
  rewrite (processLine_parsed _ _ _ Hline Hparse).
  rewrite (dispatch_screenshot_update _ _ Htype), Hc. cbv zeta.
  rewrite Hshot, Hdata.
  destruct c as [| c0 c']; [done |]. cbn [held negb fst].
  match goal with
  | |- context [handleToolEvent ?c result ?u s] =>
      destruct (handleToolEvent_invocation c result u s Hs)
        as (inv & Hinv & _ & _ & _ & _ & Hmerge & _);
      rewrite Hinv, (Hmerge old Hold)
  end.
  split.
  - unfold merge_invocation. cbn.
    assert (old ∈ invocations_of (c0 :: c') (messages (snapshot s))) as Hin
      by (rewrite Hold; apply list_elem_of_here).
    apply list_elem_of_filter in Hin as [-> _]. reflexivity.
  - rewrite (handleToolEvent_again _ _ _ _ _ Hmid Hmidne), messages_replaceMessages.
    unfold skeleton. rewrite <- list_fmap_compose. apply list_fmap_ext.
    intros i m _. cbn. unfold update_message.
    case_bool_decide; [done |]. by destruct (parts m).
Qed.

(** ** A later event for a call the session has seen *)

(** X20: what a tool event does to the invocation of a call the session has
    already seen.  An input event replaces the name, the arguments and their
    rendering, also by [undefined] when the event lacks them, and keeps the
    result already there; an output event replaces the result and keeps the
    rest. *)
Theorem later_tool_event_merges rawLine event st c old s :
  reachable s -> c ≠ [] ->
  trim rawLine ≠ [] -> JSON_parse (trim rawLine) = Some event ->
  tool_event_state event = Some st ->
  prop event (str "toolCallId") = Some (JStr c) ->
  invocations_of c (messages (snapshot s)) = [old] ->
  invocations_of c (messages (snapshot (processLine rawLine s).1))
  = [match st with
     | call =>
         {| toolCallId := c; toolName := prop event (str "toolName");
            state := call; args := prop event (str "input");
            argsText := if truthy (prop event (str "input"))
                        then JSON_stringify <$> prop event (str "input")
                        else None;
            toolResult := toolResult old |}
     | _ =>
         {| toolCallId := c; toolName := toolName old; state := result;
            args := args old; argsText := argsText old;
            toolResult := prop event (str "output") |}
     end].
Proof.
  intros Hs%reachable_consistent Hc Hline Hparse Hst Hid Hold.
  rewrite (processLine_tool_event _ _ _ _ _ Hc Hline Hparse Hst Hid). cbn [fst].
  destruct (after_marking (screenshot_target event) c
              (handleToolEvent c st (tool_event_updates event) s)) as [-> _].
  destruct (handleToolEvent_invocation c st (tool_event_updates event) s Hs)
    as (inv & -> & _ & _ & _ & _ & Hmerge & _).
  rewrite (Hmerge old Hold).
  assert (toolCallId old = c) as Hcall.
  { assert (old ∈ invocations_of c (messages (snapshot s))) as Hin
      by (rewrite Hold; apply list_elem_of_here).
    by apply list_elem_of_filter in Hin as [? _]. }
  unfold merge_invocation, tool_event_updates. rewrite Hcall.
  destruct (tool_event_state_type _ _ Hst) as [[-> Htype] | [-> Htype]];
    rewrite Htype; reflexivity.
Qed.

(** ** A read that fails, and what follows the end of the body *)

Section FramerPrefix.
Context {St : Type} (onLine : jsstring -> St -> St * Completion).

(** The chunks read before anything else happens hand over the lines they
    complete; the loop goes on with what follows the last newline. *)
Lemma readLoop_prefix chunks rest buffer d st :
  indexOf newline buffer = None ->
  readLoop onLine (map ReadChunk chunks ++ rest) buffer d st
  = match run_lines onLine
            (split_lines (buffer ++ (decode d (concat chunks)).2)).1 st with
    | (st', Normal) =>
        readLoop onLine rest
          (split_lines (buffer ++ (decode d (concat chunks)).2)).2
          (decode d (concat chunks)).1 st'
    | (st', c) => (st', loop_result c)
    end.
Proof.
  revert buffer d st.
  induction chunks as [| chunk chunks IH]; intros buffer d st Hbuffer.
  - cbn [map concat app decode fst snd]. rewrite app_nil_r.
    by rewrite (split_lines_no_newline _ Hbuffer).
  - cbn [map concat app readLoop]. rewrite decode_app.
    destruct (decode d chunk) as [d' text]. cbn [fst snd].
    destruct (drainLines_lines onLine (buffer ++ text) st) as [Hrun Hrest].
    destruct (drainLines onLine (buffer ++ text) st) as [[buffer' st'] c].
    cbn [fst snd] in Hrun, Hrest.
    rewrite app_assoc, split_lines_app. cbn [fst snd].
    rewrite run_lines_app, <- Hrun.
    destruct c; [| done | done].
    rewrite IH.
    + by rewrite Hrest.
    + rewrite Hrest by done. apply remainder_no_newline.
Qed.

End FramerPrefix.

(** X21: when a read fails, the lines that the chunks read so far had
    completed have been processed, in order, and what follows the last newline
    is dropped without being processed; the failure is what leaves the loop.
    And the loop does not read past the end of the body. *)
Theorem failed_read_drops_partial_line chunks e rest s :
  readLoop processLine (map ReadChunk chunks ++ ReadRejected e :: rest)
    [] decoder_init s
  = match processLines (split_lines (decoded (concat chunks))).1 s with
    | (s', Normal) => (s', Abrupt e)
    | (s', c) => (s', loop_result c)
    end
  ∧ readLoop processLine (map ReadChunk chunks ++ ReadDone :: rest)
      [] decoder_init s
    = readLoop processLine (map ReadChunk chunks ++ [ReadDone]) [] decoder_init s.
Proof.
  rewrite !readLoop_prefix by done. cbn [app]. unfold processLines, decoded.
  split; by destruct (run_lines _ _ s) as [s' []].
Qed.

(** ** White space around a line *)

Lemma trimStart_padded pre l :
  Forall (λ c, isWhiteSpace c = true) pre -> trimStart (pre ++ l) = trimStart l.
Proof. induction 1 as [| c pre Hc _ IH]; [done |]. cbn [app trimStart]. by rewrite Hc. Qed.

Lemma trimStart_blank post :
  Forall (λ c, isWhiteSpace c = true) post -> trimStart post = [].
Proof. intros Hpost. by rewrite <- (app_nil_r post), trimStart_padded. Qed.

Lemma trimStart_followed l post :
  Forall (λ c, isWhiteSpace c = true) post ->
  trimStart (l ++ post) = if nonempty (trimStart l) then trimStart l ++ post else [].
Proof.
  intros Hpost. induction l as [| c l IH]; cbn [app trimStart].
  - by rewrite trimStart_blank.
  - by destruct (isWhiteSpace c).
Qed.

Lemma trimEnd_followed l post :
  Forall (λ c, isWhiteSpace c = true) post -> trimEnd (l ++ post) = trimEnd l.
Proof.
  intros Hpost. unfold trimEnd. rewrite rev_app_distr, trimStart_padded; [done |].
  by apply Forall_rev.
Qed.

Lemma trim_padded pre post l :
  Forall (λ c, isWhiteSpace c = true) pre ->
  Forall (λ c, isWhiteSpace c = true) post ->
  trim (pre ++ l ++ post) = trim l.
Proof.
  intros Hpre Hpost. unfold trim.
  rewrite (trimStart_padded _ _ Hpre), (trimStart_followed _ _ Hpost).
  destruct (trimStart l) eqn:Hl; cbn [nonempty]; [done |].
  by apply trimEnd_followed.
Qed.

(** X22: white space around a line does not count: a line with white space
    before and after it (a carriage return left by a CRLF line ending, say) is
    processed as the line without it. *)
Theorem padding_is_ignored pre post rawLine s :
  Forall (λ c, isWhiteSpace c = true) pre ->
  Forall (λ c, isWhiteSpace c = true) post ->
  processLine (pre ++ rawLine ++ post) s = processLine rawLine s.
Proof.
  intros Hpre Hpost. unfold processLine. by rewrite (trim_padded _ _ _ Hpre Hpost).
Qed.

(** ** The two spellings of a text delta, and the event null *)

(** X23: the text of a text-delta event is its [delta] when that is a string
    that is not empty, whatever its [textDelta] is, and its [textDelta] when
    [delta] is missing or empty. *)
Theorem text_delta_either_field rawLine event d s :
  trim rawLine ≠ [] -> JSON_parse (trim rawLine) = Some event ->
  prop event (str "type") = Some (JStr (str "text-delta")) ->
  d ≠ [] ->
  prop event (str "delta") = Some (JStr d)
  ∨ (truthy (prop event (str "delta")) = false
     ∧ prop event (str "textDelta") = Some (JStr d)) ->
  processLine rawLine s = (handleTextDelta d s, Normal).
Proof.
  intros Hline Hparse Htype Hd Hfield.
  rewrite (processLine_parsed _ _ _ Hline Hparse), (dispatch_text_delta _ _ Htype).
  cbv zeta. destruct d as [| c r]; [done |].
  destruct Hfield as [-> | [Hdelta ->]]; [reflexivity |].
  unfold js_or. rewrite Hdelta. reflexivity.
Qed.

(** X24: the JSON value null is not skipped like a line that does not
    parse: reading its [type] throws a TypeError, which leaves [processLine]
    and with it the reading, so that the lines after it are not processed. *)
Theorem null_event_ends_the_stream before line after s :
  trim line ≠ [] -> JSON_parse (trim line) = Some JNull ->
  (processLines before s).2 = Normal ->
  processLines (before ++ line :: after) s
  = ((processLines before s).1,
     Throw (ThrownError (str "TypeError") TypeError_message)).
Proof.
  intros Hline Hparse Hbefore. unfold processLines in *.
  rewrite run_lines_app.
  destruct (run_lines processLine before s) as [s' c]. cbn [fst snd] in *. subst c.
  cbn [run_lines]. by rewrite (processLine_parsed _ _ _ Hline Hparse).
Qed.


(** ** A whole turn *)

(** Reading a body to its end dispatches the events of the decoded text. *)
Lemma readLoop_events chunks rest s :
  readLoop processLine (map ReadChunk chunks ++ ReadDone :: rest) [] decoder_init s
  = dispatch_events (stream_events (decoded (concat chunks))) s.
Proof.
  rewrite readLoop_prefix by done. cbn [app].
  rewrite stream_events_split. unfold dispatch_events, decoded.
  destruct (split_lines (decode decoder_init (concat chunks)).2) as [ls remainder].
  cbn [fst snd]. rewrite run_lines_app, run_lines_processLine.
  destruct (run_lines _ (filter _ ls) s) as [s' []]; [| done | done].
  cbn [readLoop]. rewrite processLine_trimmed. unfold blank.
  destruct (nonempty (trim remainder)) eqn:Hr; cbn [negb run_lines]; [| done].
  by destruct (parseLine (trim remainder) s') as [s'' []].
Qed.

(** X26: a turn whose response is ok and whose body is read to its end is
    the code before the request, the status [streaming], the events of the
    decoded body dispatched in order, and then the code after the loop, or the
    [catch] block if an event made the dispatcher throw.  The chunks only
    count through the bytes they add up to, and such a turn is never left
    pending. *)
Theorem turn_runs_the_events text options http_status chunks rest s :
  sendMessage_refused text s = false ->
  sendMessage text options
    {| fetched := Some (FetchResolved true http_status true);
       reads := map ReadChunk chunks ++ ReadDone :: rest |} s
  = match dispatch_events (stream_events (decoded (concat chunks)))
            (updateSnapshot (set_status streaming)
               (sendMessage_prologue text options s)) with
    | (s', Finished) => (sendMessage_epilogue s', Resolved)
    | (s', Abrupt e) => (sendMessage_catch e s', Resolved)
    | (s', OutOfModel) => (s', Unmodelled)
    | (s', Suspended) => (s', Pending)
    end
  ∧ (sendMessage text options
       {| fetched := Some (FetchResolved true http_status true);
          reads := map ReadChunk chunks ++ ReadDone :: rest |} s).2 ≠ Pending.
Proof.
  intros Hgo. unfold sendMessage. rewrite Hgo.
  unfold sendMessage_body. cbn [fetched reads negb]. cbv zeta.
  rewrite readLoop_events. split; [reflexivity |].
  unfold dispatch_events.
  destruct (run_lines _ _ _) as [s' []]; cbn [loop_result snd]; discriminate.
Qed.

(** X27: a finish event sets the status to [ready] while the body is still
    being read, so from then on a message is accepted although the earlier turn
    has not settled: the earlier request still holds its controller after the
    event, and the new turn tells that controller to abort and goes on with
    another. *)
Theorem finish_reopens_the_session line event text options old s :
  reachable s ->
  trim line ≠ [] -> JSON_parse (trim line) = Some event ->
  prop event (str "type") = Some (JStr (str "finish")) ->
  trim text ≠ [] -> isInitializing (snapshot s) = false ->
  abortController s = Some old ->
  sendMessage_refused text (processLine line s).1 = false
  ∧ abortController (processLine line s).1 = Some old
  ∧ aborts (sendMessage_prologue text options (processLine line s).1)
    = old :: aborts s
  ∧ abortController (sendMessage_prologue text options (processLine line s).1)
    ≠ Some old.
Proof.
  intros [Hcur _]%reachable_controllers Hline Hparse Htype Htext Hinit Hold.
  destruct (outside_abortController _ _ (outside_processLine line s))
    as (Hcontroller & Hmade & Haborts & _ & _ & Hflag).
  split.
  { apply (refused_after_ready text s); [| done | done | done].
    by rewrite (processLine_parsed _ _ _ Hline Hparse), (dispatch_finish _ _ Htype). }
  split; [by rewrite Hcontroller |].
  rewrite aborts_prologue, Hcontroller, Hold, Haborts. split; [reflexivity |].
  destruct (pointers_prologue text options (processLine line s).1)
    as (_ & _ & _ & _ & -> & _).
  rewrite Hmade. intros [= Heq]. specialize (Hcur old Hold). lia.
Qed.

End Behaviour.

(** * The state of a tool call *)

Section ToolStates.
Context `{Platform}.

















End ToolStates.

(** * The properties at concrete inputs *)

#[local] Existing Instance Fragment.platform.

Lemma sendMessage_appends_user_message_witness :
  ∃ s' userMessage,
    sendMessage (str "  hello ") None silent_transport idle_session = (s', Pending)
    ∧ messages (snapshot s') = messages (snapshot idle_session) ++ [userMessage]
    ∧ role userMessage = user
    ∧ content userMessage = Some (trim (str "  hello "))
    ∧ parts userMessage = None
    ∧ status (snapshot s') = submitted.
Proof.
  apply (sendMessage_appends_user_message (str "  hello ") None [] idle_session).
  - vm_compute. discriminate.
  - reflexivity.
  - reflexivity.
Defined.

Lemma sendMessage_noop_witness :
  isInitializing (snapshot (new_session true)) = true
  ∧ sendMessage (str "hello") None silent_transport (new_session true)
    = (new_session true, Resolved).
Proof.
  split; [reflexivity |].
  apply sendMessage_noop. right; right; right. reflexivity.
Defined.

Lemma early_end_restores_ready_witness :
  ∃ s2, sendMessage (str "hello") None failing_transport idle_session = (s2, Resolved)
        ∧ status (snapshot s2) = ready
        ∧ messages (snapshot s2)
          = messages (snapshot (sendMessage_prologue (str "hello") None idle_session)).
Proof.
  destruct (@early_end_restores_ready Fragment.platform) as (_ & _ & Hturn).
  apply (Hturn (str "hello") None failing_transport idle_session _
           (ThrownError (str "Error") (str "HTTP 500"))).
  - reflexivity.
  - reflexivity.
Defined.

Lemma screenshot_update_ignored_witness :
  processLine (wire "{'type':'screenshot-update','screenshot':'AAAA'}") idle_session
  = (idle_session, Normal).
Proof.
  eapply screenshot_update_ignored.
  - vm_compute. reflexivity.
  - reflexivity.
  - left. reflexivity.
Defined.

Lemma empty_text_delta_dropped_witness :
  processLine (wire "{'type':'text-delta','delta':''}") idle_session
  = (idle_session, Normal).
Proof.
  eapply empty_text_delta_dropped.
  - vm_compute. reflexivity.
  - reflexivity.
  - right. reflexivity.
  - left. reflexivity.
Defined.

Lemma idle_session_reachable : reachable idle_session.
Proof. apply reach_setInitializing, reach_subscribe, reach_new. Qed.

(** The body of the two text-delta lines, read whole, cut in the middle of
    the first line, or cut one byte at a time, gives the same session, whose
    transcript is one assistant message with content "Hello". *)
Example hello_body_chunked :
  let whole := readLoop processLine [ReadChunk hello_body; ReadDone] [] decoder_init idle_session in
  readLoop processLine
    [ReadChunk (take 10 hello_body); ReadChunk (drop 10 hello_body); ReadDone]
    [] decoder_init idle_session = whole
  ∧ readLoop processLine (map (λ b, ReadChunk [b]) hello_body ++ [ReadDone])
      [] decoder_init idle_session = whole
  ∧ whole.2 = Finished
  ∧ map (λ m, (role m, content m)) (messages (snapshot whole.1))
    = [(assistant, Some (str "Hello"))].
Proof. repeat split; reflexivity. Qed.

(** A character of two bytes cut between two chunks is decoded once both
    bytes are there, a character outside the basic plane becomes a surrogate
    pair, and a leading byte order mark is dropped. *)
Example utf8_across_chunks :
  (decode decoder_init [Byte.xc3]).2 = []
  ∧ (decode (decode decoder_init [Byte.xc3]).1 [Byte.xa9]).2 = [233%N]
  ∧ decoded [Byte.xf0; Byte.x9f; Byte.x98; Byte.x80] = [55357%N; 56832%N]
  ∧ decoded [Byte.xef; Byte.xbb; Byte.xbf; Byte.x41] = [65%N].
Proof. repeat split; vm_compute; reflexivity. Qed.

(** A line that is the JSON value null parses, and reading its [type]
    throws: the turn ends in the [catch] block, the error callback is called
    with the TypeError, and the lines after it are not dispatched. *)
Example null_line_ends_the_turn :
  let body := ascii_bytes (str "null" ++ [newline] ++ delta_He ++ [newline]) in
  let t := {| fetched := Some (FetchResolved true (str "200") true);
              reads := [ReadChunk body; ReadDone] |} in
  let after := (sendMessage (str "hi") None t idle_session).1 in
  (processLine (str "null") idle_session).2
  = Throw (ThrownError (str "TypeError") TypeError_message)
  ∧ map (λ m, (role m, content m)) (messages (snapshot after))
    = [(user, Some (str "hi"))]
  ∧ status (snapshot after) = ready
  ∧ errors_reported after = [(str "TypeError", TypeError_message)].
Proof. repeat split; vm_compute; reflexivity. Qed.

Lemma tool_call_then_result_witness :
  ∃ s1 s2 inv,
    processLine input_a idle_session = (s1, Normal)
    ∧ processLine output_a s1 = (s2, Normal)
    ∧ invocations_of (str "a") (messages (snapshot s2)) = [inv]
    ∧ length (filter (λ m, carries (str "a") m = true) (messages (snapshot s2))) = 1
    ∧ state inv = result
    ∧ toolResult inv = Some (JObj [(str "ok", JBool true)])
    ∧ toolName inv = Some (JStr (str "x"))
    ∧ args inv = Some (JObj []).
Proof.
  apply (tool_call_then_result input_a output_a
           (JObj [(str "type", JStr (str "tool-input-available"));
                  (str "toolCallId", JStr (str "a"));
                  (str "toolName", JStr (str "x"));
                  (str "input", JObj [])])
           (JObj [(str "type", JStr (str "tool-output-available"));
                  (str "toolCallId", JStr (str "a"));
                  (str "output", JObj [(str "ok", JBool true)])])
           (str "a") idle_session).
  - exact idle_session_reachable.
  - vm_compute. discriminate.
  - vm_compute. discriminate.
  - vm_compute. reflexivity.
  - reflexivity.
  - reflexivity.
  - vm_compute. discriminate.
  - vm_compute. reflexivity.
  - reflexivity.
  - reflexivity.
Defined.



Lemma text_deltas_accumulate_witness :
  ∃ s1 s2 older added,
    processLine delta_He idle_session = (s1, Normal)
    ∧ processLine delta_llo s1 = (s2, Normal)
    ∧ messages (snapshot s2) = older ++ [added]
    ∧ length older = length (messages (snapshot idle_session))
    ∧ role added = assistant
    ∧ content added = Some (str "Hello")
    ∧ parts added = None
    ∧ ((∀ m, m ∈ messages (snapshot idle_session) -> id m ≠ id added) ->
       older = messages (snapshot idle_session)).
Proof.
  apply (text_deltas_accumulate delta_He delta_llo
           (JObj [(str "type", JStr (str "text-delta")); (str "delta", JStr (str "He"))])
           (JObj [(str "type", JStr (str "text-delta")); (str "delta", JStr (str "llo"))])
           (str "He") (str "llo") idle_session).
  - reflexivity.
  - vm_compute. discriminate.
  - vm_compute. reflexivity.
  - reflexivity.
  - reflexivity.
  - vm_compute. discriminate.
  - vm_compute. discriminate.
  - vm_compute. reflexivity.
  - reflexivity.
  - reflexivity.
  - vm_compute. discriminate.
Defined.

Lemma malformed_line_discarded_witness :
  processLine not_json idle_session = (log ParseErrorLogged idle_session, Normal)
  ∧ snapshot (processLines ([delta_He] ++ not_json :: [delta_llo]) idle_session).1
    = snapshot (processLines ([delta_He] ++ [delta_llo]) idle_session).1
  ∧ calls (processLines ([delta_He] ++ not_json :: [delta_llo]) idle_session).1
    = calls (processLines ([delta_He] ++ [delta_llo]) idle_session).1
  ∧ quiet (processLines ([delta_He] ++ not_json :: [delta_llo]) idle_session).1
    = quiet (processLines ([delta_He] ++ [delta_llo]) idle_session).1
  ∧ (processLines ([delta_He] ++ not_json :: [delta_llo]) idle_session).2
    = (processLines ([delta_He] ++ [delta_llo]) idle_session).2.
Proof.
  apply malformed_line_discarded.
  - vm_compute. discriminate.
  - vm_compute. reflexivity.
Defined.

(** ** The further properties at concrete inputs *)

Lemma subscribe_unsubscribe_witness :
  (1 ∉ listeners idle_session)
  ∧ unsubscribe 1 (subscribe 1 idle_session) = idle_session.
Proof.
  assert (1 ∉ listeners idle_session) as Hfresh.
  { intros Hin. apply list_elem_of_singleton in Hin. discriminate Hin. }
  split; [exact Hfresh |].
  destruct (subscribe_unsubscribe 1 idle_session) as (_ & _ & Hback).
  exact (Hback Hfresh).
Defined.

Lemma update_notifies_once_witness :
  notified 0 (updateSnapshot (set_status streaming) idle_session)
  = (if bool_decide (0 ∈ listeners idle_session)
     then [merge (snapshot idle_session) (set_status streaming)] else [])
    ++ notified 0 idle_session.
Proof. apply update_notifies_once. exact idle_session_reachable. Defined.

Lemma cancellation_is_silent_witness :
  ∃ s2,
    sendMessage (str "hello") None
      {| fetched := Some (FetchRejected (ThrownError (str "AbortError") (str "stopped")));
         reads := [] |} idle_session
    = (s2, Resolved)
    ∧ status (snapshot s2) = ready
    ∧ errors_reported s2
      = errors_reported (sendMessage_prologue (str "hello") None idle_session)
    ∧ console s2
      = StreamingAbortedLogged
        :: console (sendMessage_prologue (str "hello") None idle_session).
Proof.
  apply (cancellation_is_silent (str "hello") None _ (str "stopped") idle_session).
  - reflexivity.
  - reflexivity.
Defined.

Lemma failed_response_is_reported_witness :
  ∃ s2 userMessage,
    sendMessage (str "hello") None
      {| fetched := Some (FetchResolved false (str "500") true); reads := [] |}
      idle_session
    = (s2, Resolved)
    ∧ status (snapshot s2) = ready
    ∧ messages (snapshot s2) = messages (snapshot idle_session) ++ [userMessage]
    ∧ role userMessage = user
    ∧ errors_reported s2
      = (if has_onError idle_session then
           [(str "Error",
             if false then str "No response body" else str "HTTP " ++ str "500")]
         else [])
        ++ errors_reported idle_session.
Proof.
  apply failed_response_is_reported.
  - reflexivity.
  - left. reflexivity.
Defined.

Lemma settled_turn_is_ready_witness :
  sendMessage_refused (str "hello") idle_session = false
  ∧ ((sendMessage (str "hello") None failing_transport idle_session).2 = Resolved ->
     status (snapshot (sendMessage (str "hello") None failing_transport idle_session).1)
     = ready)
  ∧ ((sendMessage (str "hello") None silent_transport idle_session).2 = Pending ->
     abortController (sendMessage (str "hello") None silent_transport idle_session).1
     = Some (controllers idle_session)).
Proof.
  split; [reflexivity |].
  destruct (settled_turn_is_ready (str "hello") None failing_transport
              (ThrownError (str "Error") (str "HTTP 500")) idle_session)
    as [_ Hfailed].
  destruct (settled_turn_is_ready (str "hello") None silent_transport
              (ThrownError (str "Error") (str "HTTP 500")) idle_session)
    as [_ Hsilent].
  split.
  - apply Hfailed. reflexivity.
  - apply Hsilent. reflexivity.
Defined.

Lemma request_carries_transcript_witness :
  ∃ s',
    sendMessage (str "hello") (Some {| clearInput := Some true |})
      {| fetched := None; reads := [] |}
      (updateDesktop (Some (str "wss://desktop")) (Some (str "sandbox-1")) idle_session)
    = (s', Pending)
    ∧ requests s' = (messages (snapshot s'), Some (str "sandbox-1")) :: requests idle_session
    ∧ (∃ userMessage,
         messages (snapshot s') = messages (snapshot idle_session) ++ [userMessage])
    ∧ input (snapshot s') = []
    ∧ streamUrl (snapshot s') = Some (str "wss://desktop")
    ∧ sandboxId (snapshot s') = Some (str "sandbox-1").
Proof.
  apply (request_carries_transcript (Some (str "wss://desktop")) (Some (str "sandbox-1"))
           (str "hello") (Some {| clearInput := Some true |}) [] idle_session).
  - vm_compute. discriminate.
  - reflexivity.
  - reflexivity.
Defined.

Lemma stop_cancels_once_witness :
  aborts (stop idle_session) = aborts idle_session
  ∧ sendMessage_refused (str "hello") (stop idle_session) = false.
Proof.
  destruct (stop_cancels_once idle_session) as (_ & _ & Hnone & _ & _ & Hnext).
  split.
  - apply Hnone. reflexivity.
  - apply Hnext.
    + vm_compute. discriminate.
    + reflexivity.
Defined.

Lemma new_turn_new_controller_witness :
  ∃ s' mine,
    sendMessage (str "hello") None {| fetched := None; reads := [] |} idle_session
    = (s', Pending)
    ∧ abortController s' = Some mine
    ∧ (mine ∉ aborts s')
    ∧ (∀ old, abortController idle_session = Some old -> old ≠ mine ∧ old ∈ aborts s').
Proof.
  apply new_turn_new_controller.
  - exact idle_session_reachable.
  - reflexivity.
Defined.

Lemma unknown_event_ignored_witness :
  processLine (wire "{'type':'ping'}") idle_session = (idle_session, Normal).
Proof.
  apply (unknown_event_ignored _ (JObj [(str "type", JStr (str "ping"))])).
  - vm_compute. reflexivity.
  - discriminate.
  - intros kind Hin. unfold event_kinds in Hin.
    repeat (apply elem_of_cons in Hin as [-> | Hin]; [vm_compute; discriminate |]).
    by apply not_elem_of_nil in Hin.
Defined.

Lemma tool_event_without_id_dropped_witness :
  processLine (wire "{'type':'tool-input-available','toolName':'x'}") idle_session
  = (idle_session, Normal).
Proof.
  apply (tool_event_without_id_dropped _
           (JObj [(str "type", JStr (str "tool-input-available"));
                  (str "toolName", JStr (str "x"))]) call).
  - vm_compute. reflexivity.
  - reflexivity.
  - reflexivity.
Defined.

Lemma error_event_is_reported_witness :
  ∃ s',
    processLine (wire "{'type':'error','errorText':'boom'}") idle_session = (s', Normal)
    ∧ status (snapshot s') = ready
    ∧ messages (snapshot s') = messages (snapshot idle_session)
    ∧ currentTextId s' = currentTextId idle_session
    ∧ errors_reported s'
      = (if has_onError idle_session then [(str "Error", str "boom")] else [])
        ++ errors_reported idle_session.
Proof.
  apply (error_event_is_reported _
           (JObj [(str "type", JStr (str "error")); (str "errorText", JStr (str "boom"))])
           (Some (str "boom"))).
  - vm_compute. discriminate.
  - vm_compute. reflexivity.
  - reflexivity.
  - reflexivity.
Defined.

Lemma finish_closes_text_witness :
  ∃ s1 s2 added,
    processLine (wire "{'type':'finish'}") idle_session = (s1, Normal)
    ∧ status (snapshot s1) = ready
    ∧ currentTextId s1 = None
    ∧ messages (snapshot s1) = messages (snapshot idle_session)
    ∧ processLine delta_He s1 = (s2, Normal)
    ∧ messages (snapshot s2) = messages (snapshot idle_session) ++ [added]
    ∧ role added = assistant
    ∧ content added = Some (str "He").
Proof.
  apply (finish_closes_text _ _
           (JObj [(str "type", JStr (str "finish"))])
           (JObj [(str "type", JStr (str "text-delta")); (str "delta", JStr (str "He"))])).
  - vm_compute. discriminate.
  - vm_compute. reflexivity.
  - reflexivity.
  - vm_compute. discriminate.
  - vm_compute. reflexivity.
  - reflexivity.
  - reflexivity.
  - vm_compute. discriminate.
Defined.

Lemma tool_event_and_open_text_witness :
  (toolMessageMap idle_session !! str "a" = None ->
   currentTextId (processLine input_a idle_session).1 = None
   ∧ length (messages (snapshot (processLine input_a idle_session).1))
     = S (length (messages (snapshot idle_session))))
  ∧ (is_Some (toolMessageMap idle_session !! str "a") ->
     currentTextId (processLine input_a idle_session).1 = currentTextId idle_session
     ∧ length (messages (snapshot (processLine input_a idle_session).1))
       = length (messages (snapshot idle_session))).
Proof.
  apply (tool_event_and_open_text input_a
           (JObj [(str "type", JStr (str "tool-input-available"));
                  (str "toolCallId", JStr (str "a"));
                  (str "toolName", JStr (str "x"));
                  (str "input", JObj [])])
           call (str "a") idle_session).
  - exact idle_session_reachable.
  - vm_compute. discriminate.
  - vm_compute. discriminate.
  - vm_compute. reflexivity.
  - reflexivity.
  - reflexivity.
Defined.


Lemma one_message_per_tool_call_witness :
  (toolMessageMap (processLine input_a idle_session).1 !! str "a" = None ->
   filter (λ m, carries (str "a") m = true)
     (messages (snapshot (processLine input_a idle_session).1)) = [])
  ∧ (∀ mid, toolMessageMap (processLine input_a idle_session).1 !! str "a" = Some mid ->
            ∃ m, filter (λ m, carries (str "a") m = true)
                   (messages (snapshot (processLine input_a idle_session).1)) = [m]
                 ∧ id m = mid).
Proof.
  apply one_message_per_tool_call. apply reach_line. exact idle_session_reachable.
Defined.


Lemma screenshot_goes_to_active_call_witness :
  let shot :=
    wire "{'type':'tool-input-available','toolCallId':'a','toolName':'computer','input':{'action':'screenshot'}}" in
  let update := wire "{'type':'screenshot-update','screenshot':'AAAA'}" in
  let s := (processLine shot idle_session).1 in
  ∃ old,
    invocations_of (str "a") (messages (snapshot s)) = [old]
    ∧ invocations_of (str "a") (messages (snapshot (processLine update s).1))
      = [{| toolCallId := str "a"; toolName := toolName old; state := result;
            args := args old; argsText := argsText old;
            toolResult := Some (image_result (JStr (str "AAAA"))) |}]
    ∧ skeleton (messages (snapshot (processLine update s).1))
      = skeleton (messages (snapshot s)).
Proof.
  intros shot update s.
  apply (screenshot_goes_to_active_call update
           (JObj [(str "type", JStr (str "screenshot-update"));
                  (str "screenshot", JStr (str "AAAA"))])
           (JStr (str "AAAA")) (str "a") s).
  - apply reach_line. exact idle_session_reachable.
  - vm_compute. discriminate.
  - vm_compute. reflexivity.
  - reflexivity.
  - reflexivity.
  - reflexivity.
  - vm_compute. reflexivity.
Defined.

Lemma later_tool_event_merges_witness :
  let s := (processLine output_a idle_session).1 in
  ∃ old,
    invocations_of (str "a") (messages (snapshot s)) = [old]
    ∧ invocations_of (str "a") (messages (snapshot (processLine input_a s).1))
      = [{| toolCallId := str "a"; toolName := Some (JStr (str "x"));
            state := call; args := Some (JObj []);
            argsText := Some (JSON_stringify (JObj []));
            toolResult := toolResult old |}].
Proof.
  intros s. eexists. split; [reflexivity |].
  apply (later_tool_event_merges input_a
           (JObj [(str "type", JStr (str "tool-input-available"));
                  (str "toolCallId", JStr (str "a"));
                  (str "toolName", JStr (str "x"));
                  (str "input", JObj [])])
           call (str "a") _ s).
  - apply reach_line. exact idle_session_reachable.
  - vm_compute. discriminate.
  - vm_compute. discriminate.
  - vm_compute. reflexivity.
  - reflexivity.
  - reflexivity.
  - reflexivity.
Defined.

Lemma padding_is_ignored_witness :
  processLine ([32%N] ++ delta_He ++ [13%N]) idle_session
  = processLine delta_He idle_session.
Proof.
  apply padding_is_ignored.
  - repeat constructor.
  - repeat constructor.
Defined.

Lemma text_delta_either_field_witness :
  processLine (wire "{'type':'text-delta','textDelta':'Hi'}") idle_session
  = (handleTextDelta (str "Hi") idle_session, Normal).
Proof.
  apply (text_delta_either_field _
           (JObj [(str "type", JStr (str "text-delta"));
                  (str "textDelta", JStr (str "Hi"))])).
  - vm_compute. discriminate.
  - vm_compute. reflexivity.
  - reflexivity.
  - vm_compute. discriminate.
  - right. split; reflexivity.
Defined.

Lemma null_event_ends_the_stream_witness :
  processLines ([delta_He] ++ str "null" :: [delta_llo]) idle_session
  = ((processLines [delta_He] idle_session).1,
     Throw (ThrownError (str "TypeError") TypeError_message)).
Proof.
  apply null_event_ends_the_stream.
  - vm_compute. discriminate.
  - vm_compute. reflexivity.
  - reflexivity.
Defined.


Lemma turn_runs_the_events_witness :
  sendMessage (str "hello") None
    {| fetched := Some (FetchResolved true (str "200") true);
       reads := map ReadChunk [hello_body] ++ ReadDone :: [] |} idle_session
  = match dispatch_events (stream_events (decoded (concat [hello_body])))
            (updateSnapshot (set_status streaming)
               (sendMessage_prologue (str "hello") None idle_session)) with
    | (s', Finished) => (sendMessage_epilogue s', Resolved)
    | (s', Abrupt e) => (sendMessage_catch e s', Resolved)
    | (s', OutOfModel) => (s', Unmodelled)
    | (s', Suspended) => (s', Pending)
    end
  ∧ (sendMessage (str "hello") None
       {| fetched := Some (FetchResolved true (str "200") true);
          reads := map ReadChunk [hello_body] ++ ReadDone :: [] |} idle_session).2
    ≠ Pending.
Proof. apply turn_runs_the_events. reflexivity. Defined.

Lemma finish_reopens_the_session_witness :
  let s := updateSnapshot (set_status streaming)
             (sendMessage_prologue (str "hello") None idle_session) in
  let finish := wire "{'type':'finish'}" in
  sendMessage_refused (str "again") (processLine finish s).1 = false
  ∧ abortController (processLine finish s).1 = Some 0
  ∧ aborts (sendMessage_prologue (str "again") None (processLine finish s).1)
    = 0 :: aborts s
  ∧ abortController (sendMessage_prologue (str "again") None (processLine finish s).1)
    ≠ Some 0.
Proof.
  intros s finish.
  apply (finish_reopens_the_session finish (JObj [(str "type", JStr (str "finish"))])).
  - apply reach_streaming, reach_send; [exact idle_session_reachable | reflexivity].
  - vm_compute. discriminate.
  - vm_compute. reflexivity.
  - reflexivity.
  - vm_compute. discriminate.
  - reflexivity.
  - reflexivity.
Defined.
